(** * Graph IR of the fusion compiler: operators, graphs, pattern passes

    The first part embeds [src/interface/op.hpp] and
    [src/interface/graph.hpp]: the operator with its attribute map and the
    graph container with [add_op].  The second part models the pattern
    matcher, the passes and the pass manager from the specification; their
    code is not among the sources, [tests/cpp/unit/test_pass.cpp] calls it. *)

From Stdlib Require Import QArith.
From stdpp Require Import base numbers option list strings gmap fin_maps sorting.

Local Close Scope Q_scope.

Local Open Scope string_scope.
Local Open Scope list_scope.
Local Open Scope N_scope.

(** ** Status codes and enumerations (c_types_map.hpp) *)

(** Modelled from the spec: the status codes (c_types_map.hpp is not among the
    sources): the values op.hpp and graph.hpp return, [invalid_graph] of
    [build_graph], and [duplicate_id], which only the specification names. *)
Inductive status_t : Set :=
  | success
  | invalid_argument
  | invalid_graph
  | invalid_op
  | duplicate_id.

(** Modelled from the spec: engine kinds, data types and layout kinds. *)
Inductive engine_kind_t : Set := any_engine | cpu | gpu.

Inductive data_type_t : Set := undef | f16 | bf16 | f32 | s32 | s8 | u8 | boolean.

Inductive layout_type_t : Set := layout_undef | layout_any | strided | opaque.

(** Modelled from the spec: the operator kinds (c_types_map.hpp and
    internal_ops.hpp are not among the sources): the public kinds the tests
    use, then [any] and the internal kinds of the fused operators. *)
Inductive op_kind_t : Set :=
  | Abs | Add | BatchNormInference | BiasAdd | Convolution | Divide | Elu
  | Erf | GELU | HardTanh | MatMul | Multiply | Pow | ReLU | Sigmoid | Sqrt
  | Square | Tanh | Wildcard | End_
  | any
  | conv_add | conv_bias | conv_bias_bn | conv_bias_bn_relu | conv_bias_relu
  | conv_bias_relu6 | conv_bias_swish | conv_bn | conv_bn_relu | conv_relu
  | matmul_add | matmul_bias | matmul_bias_swish | matmul_relu.

#[global] Instance status_eq_dec : EqDecision status_t.
Proof. solve_decision. Defined.

#[global] Instance op_kind_eq_dec : EqDecision op_kind_t.
Proof. solve_decision. Defined.

(** ** Logical tensors (logical_tensor.hpp) *)

(** Modelled from the spec: a logical tensor has an id, a data type, an
    optional shape and a layout kind. *)

Record logical_tensor_t : Type := {
  lt_id : N;
  lt_data_type : data_type_t;
  lt_dims : option (list Z);
  lt_layout_type : layout_type_t
}.

(** [logical_tensor_init(id, dtype)] of the unit-test utilities. *)
Definition logical_tensor_init (tid : N) (dt : data_type_t) : logical_tensor_t :=
  {| lt_id := tid; lt_data_type := dt; lt_dims := None; lt_layout_type := layout_undef |}.

(** ** Attribute values *)

Inductive attribute_kind_t : Set :=
  | ak_i | ak_f | ak_b | ak_s | ak_is | ak_fs | ak_bs | ak_ss.

#[global] Instance attribute_kind_eq_dec : EqDecision attribute_kind_t.
Proof. solve_decision. Defined.

(** Modelled from the spec: [attribute_value] (attribute_value.hpp is not among
    the sources), a tagged value whose tag is one of i64, f32, bool, string and
    their lists.  An f32 payload is kept as the rational it denotes. *)
Inductive attribute_value : Type :=
  | attr_i (v : Z)
  | attr_f (v : Q)
  | attr_b (v : bool)
  | attr_s (v : string)
  | attr_is (v : list Z)
  | attr_fs (v : list Q)
  | attr_bs (v : list bool)
  | attr_ss (v : list string).

Definition get_kind (a : attribute_value) : attribute_kind_t :=
  match a with
  | attr_i _ => ak_i | attr_f _ => ak_f | attr_b _ => ak_b | attr_s _ => ak_s
  | attr_is _ => ak_is | attr_fs _ => ak_fs | attr_bs _ => ak_bs
  | attr_ss _ => ak_ss
  end.

(** The C++ type a tag stands for. *)
Definition attr_type (T : attribute_kind_t) : Type :=
  match T with
  | ak_i => Z | ak_f => Q | ak_b => bool | ak_s => string
  | ak_is => list Z | ak_fs => list Q | ak_bs => list bool
  | ak_ss => list string
  end.

(** The converting constructor [attribute_value {a}]. *)
Definition attr_pack (T : attribute_kind_t) : attr_type T → attribute_value :=
  match T with
  | ak_i => attr_i | ak_f => attr_f | ak_b => attr_b | ak_s => attr_s
  | ak_is => attr_is | ak_fs => attr_fs | ak_bs => attr_bs | ak_ss => attr_ss
  end.

(** Modelled from the spec: the typed accessor [attribute_value::get<T>()].
    It returns a reference to the payload; reading with another tag fails, and
    as the accessor has no status to return the failure is [None] here. *)
Definition attribute_value_get (T : attribute_kind_t) (a : attribute_value)
  : option (attr_type T) :=
  match T return option (attr_type T) with
  | ak_i => match a with attr_i v => Some v | _ => None end
  | ak_f => match a with attr_f v => Some v | _ => None end
  | ak_b => match a with attr_b v => Some v | _ => None end
  | ak_s => match a with attr_s v => Some v | _ => None end
  | ak_is => match a with attr_is v => Some v | _ => None end
  | ak_fs => match a with attr_fs v => Some v | _ => None end
  | ak_bs => match a with attr_bs v => Some v | _ => None end
  | ak_ss => match a with attr_ss v => Some v | _ => None end
  end.

(** ** Operators (op.hpp) *)

Record dnnl_graph_op : Type := {
  id_ : N;
  kind_ : op_kind_t;
  debug_string_ : string;
  inputs_ : list logical_tensor_t;
  outputs_ : list logical_tensor_t;
  attributes_ : gmap string attribute_value
}.

Abbreviation op_t := dnnl_graph_op.

(** [DEFAULT_ID] is the largest [size_t]. *)
Definition DEFAULT_ID : N := 2 ^ 64 - 1.

Definition mk_op (i : N) (k : op_kind_t) (debug_string : string) : op_t :=
  {| id_ := i; kind_ := k; debug_string_ := debug_string;
     inputs_ := []; outputs_ := []; attributes_ := ∅ |}.

Definition mk_internal_op (k : op_kind_t) (debug_string : string) : op_t :=
  mk_op DEFAULT_ID k debug_string.

Definition add_input (t : logical_tensor_t) (o : op_t) : op_t :=
  {| id_ := id_ o; kind_ := kind_ o; debug_string_ := debug_string_ o;
     inputs_ := inputs_ o ++ [t]; outputs_ := outputs_ o;
     attributes_ := attributes_ o |}.

Definition add_output (t : logical_tensor_t) (o : op_t) : op_t :=
  {| id_ := id_ o; kind_ := kind_ o; debug_string_ := debug_string_ o;
     inputs_ := inputs_ o; outputs_ := outputs_ o ++ [t];
     attributes_ := attributes_ o |}.

Definition with_attributes (m : gmap string attribute_value) (o : op_t) : op_t :=
  {| id_ := id_ o; kind_ := kind_ o; debug_string_ := debug_string_ o;
     inputs_ := inputs_ o; outputs_ := outputs_ o; attributes_ := m |}.

(** [std::map::insert]: a key that is present keeps its value. *)
Definition map_insert_new (name : string) (a : attribute_value)
    (m : gmap string attribute_value) : gmap string attribute_value :=
  match m !! name with
  | Some _ => m
  | None => <[name := a]> m
  end.

(** [kind_of]: the tag stored under [name], written to the out parameter. *)
Definition kind_of (name : string) (o : op_t) : status_t * option attribute_kind_t :=
  match attributes_ o !! name with
  | None => (invalid_argument, None)
  | Some found => (success, Some (get_kind found))
  end.

(** [set_attr(name, a)]: assign through the iterator when [name] is found,
    insert otherwise. *)
Definition set_attr (name : string) (a : attribute_value) (o : op_t) : op_t :=
  match attributes_ o !! name with
  | Some _ => with_attributes (alter (λ _, a) name (attributes_ o)) o
  | None => with_attributes (map_insert_new name a (attributes_ o)) o
  end.

(** The template overload [set_attr<Attr>(name, a)] wraps [a] first. *)
Definition set_attr_as (T : attribute_kind_t) (name : string) (a : attr_type T)
    (o : op_t) : op_t :=
  set_attr name (attr_pack T a) o.

(** What a call that may be left by an exception does. *)
Inductive outcome (A : Type) : Type :=
  | Returns (a : A)
  | Throws.
Arguments Returns {A} a.
Arguments Throws {A}.

(** [get_attr<Attr>(name, &attr)]: the returned status and the value the out
    parameter is set to.  A missing name returns [invalid_argument] and leaves
    the out parameter alone; otherwise the typed accessor is called and its
    failure leaves [get_attr] without a status. *)
Definition get_attr (T : attribute_kind_t) (name : string) (o : op_t)
  : outcome (status_t * option (attr_type T)) :=
  match attributes_ o !! name with
  | None => Returns (invalid_argument, None)
  | Some found =>
      match attribute_value_get T found with
      | Some val => Returns (success, Some val)
      | None => Throws
      end
  end.

Definition get_attributes (o : op_t) : gmap string attribute_value := attributes_ o.

(** ** Operator schemas (op_schema.hpp) *)

(** Modelled from the spec: the schema of an operator kind (op_schema.hpp is
    not among the sources).  [add_op] calls two of its methods; what they
    compute is left open here.  The registry maps an operator kind to its
    schema, when it has one ([get_op_schema] returns a null pointer
    otherwise). *)
Record op_schema : Type := {
  set_default_attribute : op_t → op_t;
  verify : op_t → bool
}.

Definition op_schema_registry : Type := op_kind_t → option op_schema.

(** ** Graphs (graph.hpp) *)

(** Modelled from the spec: a node of the backend graph (ir.hpp is not among
    the sources), as far as [create_node] fills it. *)
Record node_t : Type := {
  node_op_ids : list N;
  node_kind : op_kind_t;
  node_inputs : list logical_tensor_t;
  node_outputs : list logical_tensor_t
}.

Record dnnl_graph_graph : Type := {
  nodes_ : list node_t;
  ops_ : list op_t;
  engine_kind_ : engine_kind_t
}.

Abbreviation graph_t := dnnl_graph_graph.

Definition mk_graph (k : engine_kind_t) : graph_t :=
  {| nodes_ := []; ops_ := []; engine_kind_ := k |}.

Definition empty_graph : graph_t := mk_graph cpu.

Definition num_ops (g : graph_t) : nat := length (ops_ g).

Section add_op.
Variable get_op_schema : op_schema_registry.

(** The operator [add_op] stores: the copy [tmp_ln], with the defaults of its
    schema when it has one. *)
Definition prepared (l_n : op_t) : op_t :=
  match get_op_schema (kind_ l_n) with
  | Some opm => set_default_attribute opm l_n
  | None => l_n
  end.

Definition emplace_back (o : op_t) (g : graph_t) : graph_t :=
  {| nodes_ := nodes_ g; ops_ := ops_ g ++ [o]; engine_kind_ := engine_kind_ g |}.

(** [add_op]: the returned status and the graph afterwards. *)
Definition add_op (l_n : op_t) (g : graph_t) : status_t * graph_t :=
  if forallb (λ op, negb (id_ op =? id_ l_n)) (ops_ g) then
    let opm := get_op_schema (kind_ l_n) in
    let tmp_ln := l_n in
    match opm with
    | Some opm =>
        let tmp_ln := set_default_attribute opm tmp_ln in
        if negb (verify opm tmp_ln) then (invalid_op, g)
        else (success, emplace_back tmp_ln g)
    | None => (success, emplace_back tmp_ln g)
    end
  else (success, g).
End add_op.

(** ** Value flow of a built graph *)

Definition input_ids (o : op_t) : list N := lt_id <$> inputs_ o.
Definition output_ids (o : op_t) : list N := lt_id <$> outputs_ o.

(** Modelled from the spec: [build_graph] (graph.hpp only declares it) links
    every input slot to the operator whose output holds a tensor of the same
    id.  The links are the functions [producer] and [consumer_slots] below;
    operators are referred to by their position in [ops_].  The status of
    [build_graph] follows the topological order further down. *)

(** Modelled from the spec: the producer back-reference of a value: the
    operator producing tensor [t], when there is one. *)
Definition producer (g : graph_t) (t : N) : option nat :=
  fst <$> list_find (λ o, t ∈ output_ids o) (ops_ g).

(** The tensor held by input slot [s] of operator [c]. *)
Definition input_at (g : graph_t) (c s : nat) : option N :=
  ops_ g !! c ≫= λ oc, input_ids oc !! s.

Definition num_inputs_at (g : graph_t) (c : nat) : nat :=
  from_option (λ oc, length (inputs_ oc)) 0%nat (ops_ g !! c).

(** Every input slot of the graph, as (operator, slot). *)
Definition all_slots (g : graph_t) : list (nat * nat) :=
  c ← seq 0 (length (ops_ g)); pair c <$> seq 0 (num_inputs_at g c).

(** Modelled from the spec: the consumers of a value.  Slot [cs] reads a
    tensor that operator [j] produces. *)
Definition consumes (g : graph_t) (j : nat) (cs : nat * nat) : bool :=
  match input_at g cs.1 cs.2, ops_ g !! j with
  | Some t, Some oj => bool_decide (t ∈ output_ids oj)
  | _, _ => false
  end.

Definition consumer_slots (g : graph_t) (j : nat) : list (nat * nat) :=
  filter (λ cs, consumes g j cs) (all_slots g).

Definition out_edge_count (g : graph_t) (j : nat) : nat :=
  length (consumer_slots g j).

(** Modelled from the spec: the topological order the matcher traverses in
    reverse: round after round, the operators all of whose producers are
    already listed. *)
Definition ready (g : graph_t) (done : list nat) (c : nat) : bool :=
  bool_decide (c ∉ done) &&
  forallb (λ t, match producer g t with
                | Some j => bool_decide (j ∈ done)
                | None => true
                end)
          (from_option input_ids [] (ops_ g !! c)).

Fixpoint topo_rounds (fuel : nat) (g : graph_t) (done : list nat) : list nat :=
  match fuel with
  | O => done
  | S fuel' =>
      topo_rounds fuel' g
        (done ++ filter (λ c, ready g done c) (seq 0 (length (ops_ g))))
  end.

Definition topo_order (g : graph_t) : list nat :=
  topo_rounds (length (ops_ g)) g [].

(** Modelled from the spec: [build_graph] fails with [invalid_graph] when two
    operators produce one tensor id, and when it detects a cycle: the rounds
    of the topological order then never reach the operators on the cycle. *)
Definition build_graph (g : graph_t) : status_t :=
  if bool_decide (NoDup (ops_ g ≫= output_ids))
     && bool_decide (length (topo_order g) = length (ops_ g))
  then success
  else invalid_graph.

(** ** Pattern DSL

    The pattern description, the matcher, the passes and the pass manager
    follow the specification: pass_base.hpp, pass_manager.hpp and the
    backend's pass definitions are not among the sources. *)

(** Modelled from the spec: the op-kind filter of a pattern node: a specific
    kind, [Wildcard], which matches any operator, or [Any], a terminal that
    is only read. *)

Inductive kind_filter : Type :=
  | kf_kind (k : op_kind_t)
  | kf_wildcard
  | kf_any.

(** Modelled from the spec: attribute predicates: equality on a scalar
    attribute, a bounded range. *)
Inductive attr_pred : Type :=
  | attr_f32_eq (name : string) (v : Q)
  | attr_i64_eq (name : string) (v : Z)
  | attr_f32_range (name : string) (lo hi : Q).

(** Modelled from the spec: an edge to a predecessor pattern node; [pe_slot]
    is the input slot of the consumer it must occupy, or [None] when any slot
    will do. *)
Record pattern_edge : Type := {
  pe_pred : nat;
  pe_slot : option nat
}.

(** Modelled from the spec: a pattern node: kind filter, attribute
    predicates, required in-degree and out-degree, ordered edges to its
    predecessors. *)
Record pattern_node : Type := {
  pn_kind : kind_filter;
  pn_attrs : list attr_pred;
  pn_in_degree : option nat;
  pn_out_degree : option nat;
  pn_edges : list pattern_edge
}.

(** Modelled from the spec: a pattern: its nodes, the root (the sink) and, of
    the rewrite spec, the kind of the fused operator; the boundary values are
    computed from the match. *)
Record pattern : Type := {
  pat_nodes : list pattern_node;
  pat_root : nat;
  pat_fused_kind : op_kind_t
}.

Definition is_any (f : kind_filter) : bool :=
  match f with kf_any => true | _ => false end.

Definition kind_matches (f : kind_filter) (k : op_kind_t) : bool :=
  match f with
  | kf_kind k' => bool_decide (k' = k)
  | kf_wildcard => true
  | kf_any => false
  end.

Definition attr_holds (o : op_t) (a : attr_pred) : bool :=
  match a with
  | attr_f32_eq name v =>
      match get_attr ak_f name o with
      | Returns (success, Some x) => Qeq_bool x v
      | _ => false
      end
  | attr_i64_eq name v =>
      match get_attr ak_i name o with
      | Returns (success, Some x) => bool_decide (x = v)
      | _ => false
      end
  | attr_f32_range name lo hi =>
      match get_attr ak_f name o with
      | Returns (success, Some x) => Qle_bool lo x && Qle_bool x hi
      | _ => false
      end
  end.

Definition degree_ok (required : option nat) (actual : nat) : bool :=
  match required with
  | Some d => bool_decide (d = actual)
  | None => true
  end.

(** ** Pattern matcher *)

(** A (partial) match binds pattern nodes to operators. *)
Abbreviation binding := (gmap nat nat).

(** Modelled from the spec: the checks on one candidate: kind filter,
    attribute predicates, required in-degree and out-degree, and that the
    operator is not claimed. *)
Definition node_accepts (g : graph_t) (claimed : gset nat) (pn : pattern_node)
    (o : nat) (op : op_t) : bool :=
  kind_matches (pn_kind pn) (kind_ op)
  && forallb (attr_holds op) (pn_attrs pn)
  && degree_ok (pn_in_degree pn) (length (inputs_ op))
  && degree_ok (pn_out_degree pn) (out_edge_count g o)
  && bool_decide (o ∉ claimed).

(** Every way of taking one element out of a list. *)
Fixpoint picks {A} (l : list A) : list (A * list A) :=
  match l with
  | [] => []
  | x :: l' => (x, l') :: (prod_map id (cons x) <$> picks l')
  end.

(** Modelled from the spec: the commutative binary operators. *)
Definition commutative (k : op_kind_t) : bool :=
  match k with Add | Multiply => true | _ => false end.

(** Modelled from the spec: may edge [e] take input slot [s] of operator
    [op]?  An edge with a slot index takes that slot, an order-free edge any
    slot; and the inputs of a commutative operator match regardless of their
    order, so that on Add and Multiply every edge may take every slot. *)
Definition slot_allowed (op : op_t) (e : pattern_edge) (s : nat) : bool :=
  commutative (kind_ op)
  || match pe_slot e with
     | Some s' => bool_decide (s' = s)
     | None => true
     end.

(** The operators a match binds, in graph order. *)
Definition matched_ops (g : graph_t) (b : binding) : list nat :=
  filter (λ i, i ∈ (map_img b : gset nat)) (seq 0 (length (ops_ g))).

(** Modelled from the spec: a matched interior value that also has an
    external consumer rejects the match: no matched operator is read both by
    a matched operator and by an operator outside the match. *)
Definition interior_safe (g : graph_t) (b : binding) : bool :=
  let ms := matched_ops g b in
  forallb (λ j, let readers := fst <$> consumer_slots g j in
                negb (existsb (λ c, bool_decide (c ∈ ms)) readers
                      && existsb (λ c, bool_decide (c ∉ ms)) readers))
          ms.

Section matcher.
Variable g : graph_t.
Variable claimed : gset nat.
Variable p : pattern.

(** Modelled from the spec: follow edge [e] from a consumer whose slot holds
    tensor [t]: an [Any] terminal is only read; another node must match the
    producer of [t]. *)
Definition match_pred (rec : nat → nat → binding → list binding)
    (e : pattern_edge) (t : N) (b : binding) : list binding :=
  match pat_nodes p !! pe_pred e with
  | None => []
  | Some pm =>
      if is_any (pn_kind pm) then [b]
      else match producer g t with
           | Some j => rec (pe_pred e) j b
           | None => []
           end
  end.

(** Modelled from the spec: place the edges of one node, in order, on
    distinct input slots of the operator [op]: every slot that is still free
    and that the edge may take is tried. *)
Fixpoint match_edges (rec : nat → nat → binding → list binding) (op : op_t)
    (es : list pattern_edge) (slots : list (nat * N)) (b : binding)
  : list binding :=
  match es with
  | [] => [b]
  | e :: es' =>
      '(st, rest) ← filter (λ x, slot_allowed op e x.1.1) (picks slots);
      b' ← match_pred rec e st.2 b;
      match_edges rec op es' rest b'
  end.

(** Modelled from the spec: all matches of pattern node [n] at operator [o]
    extending [b], walking backwards along the pattern edges; a node is
    bound to one operator and an operator to one node. *)
Fixpoint match_node (fuel : nat) (n o : nat) (b : binding) : list binding :=
  match fuel with
  | O => []
  | S fuel' =>
      match b !! n with
      | Some o' => if decide (o' = o) then [b] else []
      | None =>
          if decide (o ∈ (map_img b : gset nat)) then []
          else
            match pat_nodes p !! n, ops_ g !! o with
            | Some pn, Some op =>
                if node_accepts g claimed pn o op then
                  match_edges (match_node fuel') op
                    (pn_edges pn) (imap pair (input_ids op)) (<[n := o]> b)
                else []
            | _, _ => []
            end
      end
  end.

(** Every pattern node other than the [Any] terminals is bound. *)
Definition complete (b : binding) : bool :=
  forallb (λ x, is_any (pn_kind x.2) || bool_decide (is_Some (b !! x.1)))
          (imap pair (pat_nodes p)).

(** Modelled from the spec: the match rooted at operator [r]: of the
    orderings tried, the first that succeeds wins; an ordering succeeds when
    it binds every pattern node and is not rejected for an interior value
    with an external consumer. *)
Definition match_pattern (r : nat) : option binding :=
  head (filter (λ b, complete b && interior_safe g b)
          (match_node (S (length (pat_nodes p))) (pat_root p) r ∅)).
End matcher.

(** ** Rewrite step and partitions *)

(** Modelled from the spec: a partition: its fused operator and the operators
    it owns, by position and in graph order. *)
Record partition : Type := {
  fused_op : op_t;
  part_ops : list nat
}.

Definition produced_inside (g : graph_t) (ms : list nat) (t : N) : bool :=
  match producer g t with
  | Some j => bool_decide (j ∈ ms)
  | None => false
  end.

Definition consumed_inside (g : graph_t) (ms : list nat) (t : N) : bool :=
  existsb (λ c, bool_decide (t ∈ from_option input_ids [] (ops_ g !! c))) ms.

(** Modelled from the spec: the boundary values of a match: the inputs no
    matched operator produces and the outputs no matched operator reads. *)
Definition external_inputs (g : graph_t) (ms : list nat) : list logical_tensor_t :=
  i ← ms;
  filter (λ t, negb (produced_inside g ms (lt_id t)))
         (from_option inputs_ [] (ops_ g !! i)).

Definition external_outputs (g : graph_t) (ms : list nat) : list logical_tensor_t :=
  i ← ms;
  filter (λ t, negb (consumed_inside g ms (lt_id t)))
         (from_option outputs_ [] (ops_ g !! i)).

(** Modelled from the spec: the rewrite step: a fused operator of the
    pattern's kind on the boundary values, owning the matched operators. *)
Definition rewrite (g : graph_t) (p : pattern) (b : binding) : partition :=
  let ms := matched_ops g b in
  {| fused_op :=
       {| id_ := DEFAULT_ID; kind_ := pat_fused_kind p; debug_string_ := "";
          inputs_ := external_inputs g ms; outputs_ := external_outputs g ms;
          attributes_ := ∅ |};
     part_ops := ms |}.

(** Modelled from the spec: what the passes have done so far: the claimed
    operators and the partitions, oldest first.  The operators stay in
    [ops_]; the claimed ones are no longer active. *)
Record pass_state : Type := {
  st_claimed : gset nat;
  st_partitions : list partition
}.

Definition init_state : pass_state :=
  {| st_claimed := ∅; st_partitions := [] |}.

(** Modelled from the spec: attempt a match rooted at [r] and rewrite it. *)
Definition try_root (g : graph_t) (p : pattern) (st : pass_state) (r : nat)
  : pass_state :=
  match match_pattern g (st_claimed st) p r with
  | Some b =>
      let part := rewrite g p b in
      {| st_claimed := st_claimed st ∪ list_to_set (part_ops part);
         st_partitions := st_partitions st ++ [part] |}
  | None => st
  end.

(** Modelled from the spec: one pattern over the graph, roots in reverse
    topological order. *)
Definition run_pattern (g : graph_t) (st : pass_state) (p : pattern) : pass_state :=
  foldl (try_root g p) st (reverse (topo_order g)).

(** ** Passes and the pass manager *)

(** Modelled from the spec: a pass: name, type, priority and pattern;
    [pass_patterns] are the variants of the pattern (such as the convolution
    with a bias input and the convolution followed by BiasAdd), tried in
    order. *)
Record pass : Type := {
  pass_name : string;
  pass_type : string;
  pass_priority : Q;
  pass_patterns : list pattern
}.

(** Modelled from the spec: [pass->run(graph)]. *)
Definition run_pass (g : graph_t) (ps : pass) (st : pass_state) : pass_state :=
  foldl (run_pattern g) st (pass_patterns ps).

Definition get_num_partitions (st : pass_state) : nat :=
  length (st_partitions st).

(** Modelled from the spec: [get_partitions]: the produced partitions, then a
    single-operator partition for every operator still unclaimed. *)
Definition get_partitions (g : graph_t) (st : pass_state) : list partition :=
  st_partitions st ++
  omap (λ i, if decide (i ∈ st_claimed st) then None
             else (λ o, {| fused_op := o; part_ops := [i] |}) <$> ops_ g !! i)
       (seq 0 (length (ops_ g))).

(** Modelled from the spec: priority-descending order; passes of equal
    priority keep their registration order. *)
Fixpoint insert_by_priority (ps : pass) (l : list pass) : list pass :=
  match l with
  | [] => [ps]
  | q :: l' =>
      if Qle_bool (pass_priority q) (pass_priority ps) then ps :: q :: l'
      else q :: insert_by_priority ps l'
  end.

Definition sort_by_priority (reg : list pass) : list pass :=
  foldr insert_by_priority [] reg.

Definition find_pass (reg : list pass) (name : string) : option pass :=
  snd <$> list_find (λ q, pass_name q = name) reg.

(** Modelled from the spec: the persisted pass list, a JSON document with the
    array [passes] of objects with the fields [pass_name], [pass_type],
    [enable] and [priority]. *)
#[local] Set Warnings "-register-all".
Inductive json : Type :=
  | JNull
  | JBool (b : bool)
  | JNumber (q : Q)
  | JString (s : string)
  | JArray (l : list json)
  | JObject (fields : list (string * json)).

Record pass_config_entry : Type := {
  cfg_pass_name : string;
  cfg_pass_type : string;
  cfg_enable : bool;
  cfg_priority : Q
}.

Definition json_of_entry (e : pass_config_entry) : json :=
  JObject [("pass_name", JString (cfg_pass_name e));
           ("pass_type", JString (cfg_pass_type e));
           ("enable", JBool (cfg_enable e));
           ("priority", JNumber (cfg_priority e))].

Definition json_of_config (c : list pass_config_entry) : json :=
  JObject [("passes", JArray (json_of_entry <$> c))].

Definition json_field (name : string) (j : json) : option json :=
  match j with
  | JObject fields =>
      (λ x : nat * (string * json), x.2.2) <$> list_find (λ x, x.1 = name) fields
  | _ => None
  end.

Definition json_string (j : json) : option string :=
  match j with JString s => Some s | _ => None end.
Definition json_bool (j : json) : option bool :=
  match j with JBool b => Some b | _ => None end.
Definition json_number (j : json) : option Q :=
  match j with JNumber q => Some q | _ => None end.
Definition json_array (j : json) : option (list json) :=
  match j with JArray l => Some l | _ => None end.

(** Modelled from the spec: an entry of the array; a missing [enable]
    defaults to true. *)
Definition entry_of_json (j : json) : option pass_config_entry :=
  name ← json_field "pass_name" j ≫= json_string;
  type ← json_field "pass_type" j ≫= json_string;
  enable ← match json_field "enable" j with
           | Some v => json_bool v
           | None => Some true
           end;
  priority ← json_field "priority" j ≫= json_number;
  Some {| cfg_pass_name := name; cfg_pass_type := type; cfg_enable := enable;
          cfg_priority := priority |}.

Definition config_of_json (j : json) : option (list pass_config_entry) :=
  l ← json_field "passes" j ≫= json_array;
  mapM (M := option) entry_of_json l.

Definition entry_of_pass (ps : pass) : pass_config_entry :=
  {| cfg_pass_name := pass_name ps; cfg_pass_type := pass_type ps;
     cfg_enable := true; cfg_priority := pass_priority ps |}.

Section pass_manager.
(** The registered passes, in registration order. *)
Variable registry : list pass.

(** Modelled from the spec: [print_passes(path)]: dump the current ordering
    to the file [path]. *)
Definition print_passes (path : string) (files : gmap string json)
  : gmap string json :=
  <[path := json_of_config (entry_of_pass <$> sort_by_priority registry)]> files.

(** Modelled from the spec: the configuration [run_passes] reads: none for
    the path [no_config], else the list that the file at [path] holds.  The
    specification does not say what a missing or malformed file leads to:
    [load_config] has no result then. *)
Definition load_config (path : string) (files : gmap string json)
  : option (option (list pass_config_entry)) :=
  if decide (path = "no_config") then Some None
  else Some <$> (files !! path ≫= config_of_json).

(** Modelled from the spec: the effective pass list: the configured order
    without the disabled passes, or else priority-descending. *)
Definition effective_passes (config : option (list pass_config_entry))
  : list pass :=
  match config with
  | Some c =>
      omap (λ e, if cfg_enable e then find_pass registry (cfg_pass_name e)
                 else None) c
  | None => sort_by_priority registry
  end.

(** Modelled from the spec: [run_passes(graph, path)]: every effective pass
    in turn, each on the state the passes before it left; no result when
    [load_config] has none. *)
Definition run_passes (g : graph_t) (path : string)
    (files : gmap string json) : option pass_state :=
  config ← load_config path files;
  Some (foldl (λ st ps, run_pass g ps st) init_state (effective_passes config)).
End pass_manager.

(** [ps] may stand before [q] in priority-descending order. *)
Definition priority_ge (ps q : pass) : Prop :=
  (pass_priority q <= pass_priority ps)%Q.

(** ** The schemas and passes of the backend *)

(** Modelled from the spec: the declaration of a schema: input and output
    arity and the attributes with kind, required flag and default. *)

Record attribute_spec : Type := {
  as_name : string;
  as_kind : attribute_kind_t;
  as_required : bool;
  as_default : option attribute_value
}.

Record schema_decl : Type := {
  sd_min_inputs : nat;
  sd_max_inputs : nat;
  sd_min_outputs : nat;
  sd_max_outputs : nat;
  sd_attrs : list attribute_spec
}.

(** Modelled from the spec: [set_default_attributes] populates the missing
    attributes that have a default. *)
Definition schema_set_default (d : schema_decl) (o : op_t) : op_t :=
  foldl (λ o a, match as_default a, attributes_ o !! as_name a with
                | Some v, None => set_attr (as_name a) v o
                | _, _ => o
                end) o (sd_attrs d).

(** Modelled from the spec: [verify] is false when a required attribute is
    absent, an attribute has another kind than declared, or the arity is
    violated. *)
Definition schema_verify (d : schema_decl) (o : op_t) : bool :=
  bool_decide (sd_min_inputs d ≤ length (inputs_ o) ≤ sd_max_inputs d)%nat
  && bool_decide (sd_min_outputs d ≤ length (outputs_ o) ≤ sd_max_outputs d)%nat
  && forallb (λ a, match kind_of (as_name a) o with
                   | (success, Some k) => bool_decide (k = as_kind a)
                   | _ => negb (as_required a)
                   end) (sd_attrs d).

Definition schema_of (d : schema_decl) : op_schema :=
  {| set_default_attribute := schema_set_default d; verify := schema_verify d |}.

Definition required_attr (name : string) (k : attribute_kind_t) : attribute_spec :=
  {| as_name := name; as_kind := k; as_required := true; as_default := None |}.

Definition optional_attr (name : string) (v : attribute_value) : attribute_spec :=
  {| as_name := name; as_kind := get_kind v; as_required := false;
     as_default := Some v |}.

Definition simple_schema (n_in_min n_in_max : nat) (attrs : list attribute_spec)
  : schema_decl :=
  {| sd_min_inputs := n_in_min; sd_max_inputs := n_in_max;
     sd_min_outputs := 1; sd_max_outputs := 1; sd_attrs := attrs |}.

(** Modelled from the spec: the registered schemas, for the operator kinds of
    the scenario graphs that [add_op] verifies. *)
Definition dnnl_schemas : op_schema_registry := λ k,
  match k with
  | Convolution =>
      Some (schema_of (simple_schema 2 3
        [required_attr "strides" ak_is; required_attr "pads_begin" ak_is;
         required_attr "pads_end" ak_is; required_attr "dilations" ak_is;
         optional_attr "data_format" (attr_s "NXC");
         optional_attr "filter_format" (attr_s "XIO");
         optional_attr "groups" (attr_i 1);
         optional_attr "auto_pad" (attr_s "None")]))
  | BatchNormInference =>
      Some (schema_of (simple_schema 5 5 [required_attr "epsilon" ak_f]))
  | HardTanh =>
      Some (schema_of (simple_schema 1 1
        [required_attr "min" ak_f; required_attr "max" ak_f]))
  | ReLU | Sigmoid => Some (schema_of (simple_schema 1 1 []))
  | BiasAdd | Add | Multiply => Some (schema_of (simple_schema 2 2 []))
  | _ => None
  end.

(** *** Patterns

    Modelled from the spec: the patterns of the passes that test_pass.cpp
    runs, from the scenarios of the specification and the graphs of the
    tests. *)

Definition edge_at (s m : nat) : pattern_edge := {| pe_pred := m; pe_slot := Some s |}.
Definition edge_free (m : nat) : pattern_edge := {| pe_pred := m; pe_slot := None |}.

(** An interior node: it feeds [fan_out] edges of the pattern and nothing
    else. *)
Definition inner (k : op_kind_t) (fan_out : nat) (es : list pattern_edge)
  : pattern_node :=
  {| pn_kind := kf_kind k; pn_attrs := []; pn_in_degree := None;
     pn_out_degree := Some fan_out; pn_edges := es |}.

(** The sink of a pattern. *)
Definition sink (k : op_kind_t) (attrs : list attr_pred) (es : list pattern_edge)
  : pattern_node :=
  {| pn_kind := kf_kind k; pn_attrs := attrs; pn_in_degree := None;
     pn_out_degree := None; pn_edges := es |}.

(** The convolution with [n_in] inputs: 2 without bias, 3 with the bias. *)
Definition conv_node (n_in fan_out : nat) : pattern_node :=
  {| pn_kind := kf_kind Convolution; pn_attrs := []; pn_in_degree := Some n_in;
     pn_out_degree := Some fan_out; pn_edges := [] |}.

Definition any_node : pattern_node :=
  {| pn_kind := kf_any; pn_attrs := []; pn_in_degree := None;
     pn_out_degree := None; pn_edges := [] |}.

Definition mk_pattern (k : op_kind_t) (nodes : list pattern_node) : pattern :=
  {| pat_nodes := nodes; pat_root := 0; pat_fused_kind := k |}.

Definition relu6_bounds : list attr_pred :=
  [attr_f32_eq "min" 0%Q; attr_f32_eq "max" 6%Q].

Definition conv_bn_pattern : pattern :=
  mk_pattern conv_bn
    [sink BatchNormInference [] [edge_at 0 1]; conv_node 2 1].

Definition conv_relu_pattern : pattern :=
  mk_pattern conv_relu [sink ReLU [] [edge_at 0 1]; conv_node 2 1].

Definition conv_bn_relu_pattern : pattern :=
  mk_pattern conv_bn_relu
    [sink ReLU [] [edge_at 0 1]; inner BatchNormInference 1 [edge_at 0 2];
     conv_node 2 1].

Definition conv_biasadd_bn_relu_pattern : pattern :=
  mk_pattern conv_bias_bn_relu
    [sink ReLU [] [edge_at 0 1]; inner BatchNormInference 1 [edge_at 0 2];
     inner BiasAdd 1 [edge_at 0 3]; conv_node 2 1].

Definition conv3_bn_relu_pattern : pattern :=
  mk_pattern conv_bias_bn_relu
    [sink ReLU [] [edge_at 0 1]; inner BatchNormInference 1 [edge_at 0 2];
     conv_node 3 1].

Definition conv_biasadd_relu6_pattern : pattern :=
  mk_pattern conv_bias_relu6
    [sink HardTanh relu6_bounds [edge_at 0 1]; inner BiasAdd 1 [edge_at 0 2];
     conv_node 2 1].

Definition conv3_relu6_pattern : pattern :=
  mk_pattern conv_bias_relu6
    [sink HardTanh relu6_bounds [edge_at 0 1]; conv_node 3 1].

Definition conv_sum_pattern : pattern :=
  mk_pattern conv_add
    [sink Add [] [edge_free 1; edge_free 2]; conv_node 2 1; any_node].

(** Swish: the multiply reads the sigmoid and the value the sigmoid reads. *)
Definition conv3_swish_pattern : pattern :=
  mk_pattern conv_bias_swish
    [sink Multiply [] [edge_free 1; edge_free 2];
     inner Sigmoid 1 [edge_at 0 2]; conv_node 3 2].

Definition conv_biasadd_swish_pattern : pattern :=
  mk_pattern conv_bias_swish
    [sink Multiply [] [edge_free 1; edge_free 2];
     inner Sigmoid 1 [edge_at 0 2]; inner BiasAdd 2 [edge_at 0 3];
     conv_node 2 1].

Definition matmul_sum_pattern : pattern :=
  mk_pattern matmul_add
    [sink Add [] [edge_free 1; edge_free 2]; inner MatMul 1 []; any_node].

Definition matmul_bias_swish_pattern : pattern :=
  mk_pattern matmul_bias_swish
    [sink Multiply [] [edge_free 1; edge_free 2];
     inner Sigmoid 1 [edge_at 0 2]; inner BiasAdd 2 [edge_at 0 3];
     inner MatMul 1 []].

(** GELU, tanh based:
    [x * 0.5 * (1 + tanh (c * (x + k * x ^ 3)))]. *)
Definition gelu_tanh_pattern : pattern :=
  mk_pattern GELU
    [sink Multiply [] [edge_free 1; edge_free 8];
     inner Multiply 1 [edge_free 2; edge_free 8];
     inner Add 1 [edge_free 3; edge_free 8];
     inner Tanh 1 [edge_at 0 4];
     inner Multiply 1 [edge_free 5; edge_free 8];
     inner Add 1 [edge_free 6; edge_free 8];
     inner Multiply 1 [edge_free 7; edge_free 8];
     inner Pow 1 [edge_at 0 8];
     any_node].

(** GELU, erf based: [x * 0.5 * (1 + erf (x / sqrt 2))]. *)
Definition gelu_erf_pattern : pattern :=
  mk_pattern GELU
    [sink Multiply [] [edge_free 1; edge_free 5];
     inner Multiply 1 [edge_free 2; edge_free 5];
     inner Add 1 [edge_free 3; edge_free 5];
     inner Erf 1 [edge_at 0 4];
     inner Divide 1 [edge_at 0 5];
     any_node].

Definition conv_single_pattern : pattern :=
  mk_pattern Convolution
    [{| pn_kind := kf_kind Convolution; pn_attrs := []; pn_in_degree := Some 2%nat;
        pn_out_degree := None; pn_edges := [] |}].

Definition sum_single_pattern : pattern :=
  mk_pattern Add [sink Add [] []].

(** *** Passes

    Modelled from the spec: the passes; the longer a pattern, the higher the
    priority. *)

Definition fusion_pass (name : string) (priority : Q) (ps : list pattern) : pass :=
  {| pass_name := name; pass_type := "fusion"; pass_priority := priority;
     pass_patterns := ps |}.

Definition conv_bn_fusion := fusion_pass "conv_bn_fusion" 9.1%Q [conv_bn_pattern].
Definition conv_relu_fusion := fusion_pass "conv_relu_fusion" 9.0%Q [conv_relu_pattern].
Definition conv_sum_fusion := fusion_pass "conv_sum_fusion" 9.0%Q [conv_sum_pattern].
Definition conv_bn_relu_fusion :=
  fusion_pass "conv_bn_relu_fusion" 9.5%Q [conv_bn_relu_pattern].
Definition conv_bias_bn_relu_fusion :=
  fusion_pass "conv_bias_bn_relu_fusion" 9.9%Q
    [conv_biasadd_bn_relu_pattern; conv3_bn_relu_pattern].
Definition conv_bias_relu6_fusion :=
  fusion_pass "conv_bias_relu6_fusion" 9.6%Q
    [conv_biasadd_relu6_pattern; conv3_relu6_pattern].
Definition conv_bias_swish_fusion :=
  fusion_pass "conv_bias_swish_fusion" 9.7%Q
    [conv_biasadd_swish_pattern; conv3_swish_pattern].
Definition matmul_sum_fusion :=
  fusion_pass "matmul_sum_fusion" 8.8%Q [matmul_sum_pattern].
Definition matmul_bias_swish_fusion :=
  fusion_pass "matmul_bias_swish_fusion" 9.2%Q [matmul_bias_swish_pattern].
Definition gelu_fusion :=
  fusion_pass "gelu_fusion" 9.4%Q [gelu_tanh_pattern; gelu_erf_pattern].
Definition conv_pass := fusion_pass "conv_pass" 8.0%Q [conv_single_pattern].
Definition sum_pass := fusion_pass "sum_pass" 8.0%Q [sum_single_pattern].

(** The registered passes, in registration order. *)
Definition dnnl_passes : list pass :=
  [conv_pass; sum_pass; conv_bn_fusion; conv_relu_fusion; conv_sum_fusion;
   conv_bn_relu_fusion; conv_bias_bn_relu_fusion; conv_bias_relu6_fusion;
   conv_bias_swish_fusion; matmul_sum_fusion; matmul_bias_swish_fusion;
   gelu_fusion].

(** [get_pass(name)] of test_pass.cpp; the tests only ask for registered
    names. *)
Definition get_pass (name : string) : pass :=
  default (fusion_pass name 0%Q []) (find_pass dnnl_passes name).

(** ** The graphs of test_pass.cpp *)

Definition lt (i : N) : logical_tensor_t := logical_tensor_init i f32.

(** [add_input] on each of [ins], then [add_output] on each of [outs]. *)
Definition with_io (ins outs : list N) (o : op_t) : op_t :=
  foldl (λ o t, add_output (lt t) o) (foldl (λ o t, add_input (lt t) o) o ins) outs.

Definition set_conv_common_attr (conv : op_t) : op_t :=
  foldl (λ o f, f o) conv
    [set_attr_as ak_is "strides" [1; 1]%Z;
     set_attr_as ak_is "pads_begin" [0; 0]%Z;
     set_attr_as ak_is "pads_end" [0; 0]%Z;
     set_attr_as ak_is "dilations" [1; 1]%Z;
     set_attr_as ak_s "data_format" "NXC";
     set_attr_as ak_s "filter_format" "XIO";
     set_attr_as ak_i "groups" 1%Z;
     set_attr_as ak_s "auto_pad" "None"].

(** [add_op] on each operator in turn: the statuses and the final graph. *)
Definition add_ops (reg : op_schema_registry) (ops : list op_t) (g : graph_t)
  : list status_t * graph_t :=
  foldl (λ (r : list status_t * graph_t) o,
           let r' := add_op reg o r.2 in (r.1 ++ [r'.1], r'.2)) ([], g) ops.

Definition graph_of (ops : list op_t) : graph_t :=
  (add_ops dnnl_schemas ops empty_graph).2.

(** Operators made by [create_op(kind)] live in the graph at once and carry
    the default id; [with_io] stands for their [fill_and_connect_input]. *)
Definition created (ops : list op_t) : graph_t :=
  foldl (λ g o, emplace_back o g) empty_graph ops.

Definition conv_op (i : N) (ins : list N) (out : N) : op_t :=
  with_io ins [out] (set_conv_common_attr (mk_op i Convolution "conv")).

(** The [float] literal [0.001f]. *)
Definition f32_0_001 : Q := 8589935 # 8589934592.

Definition bn_op (i : N) (ins : list N) (out : N) : op_t :=
  with_io ins [out]
    (set_attr_as ak_f "epsilon" f32_0_001 (mk_op i BatchNormInference "bn")).

Definition plain_op (i : N) (k : op_kind_t) (name : string) (ins : list N) (out : N)
  : op_t :=
  with_io ins [out] (mk_op i k name).

Definition hardtanh_op (i : N) (lo hi : Q) (ins : list N) (out : N) : op_t :=
  with_io ins [out]
    (set_attr_as ak_f "max" hi (set_attr_as ak_f "min" lo (mk_op i HardTanh "hardtanh"))).

(** conv_bn_fusion *)
Definition conv_bn_graph : graph_t :=
  graph_of [conv_op 0 [0; 1] 2; bn_op 1 [2; 3; 4; 5; 6] 7].


(** conv_bn_fusion_fail_case2: bn and relu both read the convolution. *)
Definition conv_fan_out_graph : graph_t :=
  graph_of [conv_op 0 [0; 1] 2; bn_op 1 [2; 3; 4; 5; 6] 7;
            plain_op 2 ReLU "relu" [2] 8].




(** conv_bias_swish_fusion *)
Definition conv_bias_swish_graph : graph_t :=
  graph_of [conv_op 0 [0; 1; 2] 3; plain_op 1 Sigmoid "sigmoid" [3] 4;
            plain_op 2 Multiply "multiply" [4; 3] 5].

Definition created_op (k : op_kind_t) (ins : list N) (out : N) : op_t :=
  with_io ins [out] (mk_internal_op k "").

(** matmul_bias_swish_fusion *)
Definition matmul_bias_swish_graph : graph_t :=
  created [created_op MatMul [] 1; created_op BiasAdd [1] 2;
           created_op Sigmoid [2] 3; created_op Multiply [3; 2] 4].









(** conv_relu_fusion, conv_relu_fusion_fail (the convolution has the bias
    input) and conv_relu_fusion_fail_case2 (two ReLU read it). *)
Definition conv_relu_graph : graph_t :=
  graph_of [conv_op 0 [0; 1] 2; plain_op 1 ReLU "relu" [2] 3].

Definition conv_bias_relu_graph : graph_t :=
  graph_of [conv_op 0 [0; 1; 2] 3; plain_op 1 ReLU "relu" [3] 4].

Definition conv_bias_two_relu_graph : graph_t :=
  graph_of [conv_op 0 [0; 1; 2] 3; plain_op 1 ReLU "relu" [3] 4;
            plain_op 2 ReLU "relu" [3] 5].

(** conv_sum_fusion and conv_sum_fusion_fail *)
Definition conv_sum_graph : graph_t :=
  graph_of [conv_op 0 [0; 1] 2; plain_op 1 Add "add" [2; 3] 4].

Definition conv_bias_sum_graph : graph_t :=
  graph_of [conv_op 0 [0; 1; 2] 3; plain_op 1 Add "add" [3; 4] 5].

(** conv_single_node_replacement *)
Definition conv_single_graph : graph_t := graph_of [conv_op 0 [0; 1] 2].

(** multi_values_between_two_nodes: both inputs of the Add read the
    convolution. *)
Definition multi_values_graph : graph_t :=
  graph_of [conv_op 0 [0; 1] 2; plain_op 1 Add "add" [2; 2] 3].

(** A graph whose two operators read each other. *)
Definition cyclic_graph : graph_t :=
  graph_of [plain_op 0 ReLU "a" [1] 0; plain_op 1 ReLU "b" [0] 1].

(** The conv_bn pattern without a required out-degree on the convolution. *)
Definition conv_bn_any_fan_out_pattern : pattern :=
  mk_pattern conv_bn
    [sink BatchNormInference [] [edge_at 0 1];
     {| pn_kind := kf_kind Convolution; pn_attrs := []; pn_in_degree := Some 2%nat;
        pn_out_degree := None; pn_edges := [] |}].


(** save_load_json *)
Definition save_load_graph : graph_t :=
  graph_of [conv_op 0 [0; 1] 2; bn_op 1 [2; 3; 4; 5; 6] 7;
            plain_op 2 ReLU "relu" [7] 8; conv_op 3 [9; 10] 11;
            plain_op 4 Add "add" [11; 8] 12].

(** conv_bn_relu_fusion (scenario S1) *)
Definition conv_bn_relu_graph : graph_t :=
  graph_of [conv_op 0 [0; 1] 2; bn_op 1 [2; 3; 4; 5; 6] 7;
            plain_op 2 ReLU "relu" [7] 8].

(** two_conv_with_shared_weight (scenario S6) *)
Definition shared_weight_graph : graph_t :=
  graph_of [conv_op 0 [0; 1] 2; plain_op 1 ReLU "relu0" [2] 3;
            conv_op 2 [3; 1] 4; plain_op 3 ReLU "relu1" [4] 5].

(** Kind, number of inputs and number of outputs of the fused operators. *)
Definition fused_shapes (st : pass_state) : list (op_kind_t * nat * nat) :=
  (λ part, (kind_ (fused_op part), length (inputs_ (fused_op part)),
            length (outputs_ (fused_op part)))) <$> st_partitions st.

(** The fused kinds of the partitions a pass leaves on a fresh graph. *)
Definition fused_kinds (st : pass_state) : list op_kind_t :=
  (λ part, kind_ (fused_op part)) <$> st_partitions st.

Definition run_on (g : graph_t) (name : string) : pass_state :=
  run_pass g (get_pass name) init_state.

(** ** Specification vocabulary *)

(** No operator of the graph has the id of [l_n]. *)
Definition fresh_id (l_n : op_t) (g : graph_t) : Prop :=
  ∀ op, op ∈ ops_ g → id_ op ≠ id_ l_n.

(** [l_n] has no schema, or its schema verifies it once the defaults are
    set. *)
Definition passes_schema (reg : op_schema_registry) (l_n : op_t) : bool :=
  match reg (kind_ l_n) with
  | Some opm => verify opm (set_default_attribute opm l_n)
  | None => true
  end.

(** A convolution without its required attributes. *)
Definition bare_conv_op (i : N) : op_t :=
  with_io [20; 21] [22] (mk_op i Convolution "conv").

(** *** Fan-out safety (P5) *)

(** Operator [c] reads an output of operator [j]. *)
Definition reads_from (g : graph_t) (c j : nat) : Prop :=
  ∃ s, (c, s) ∈ consumer_slots g j.

(** No operator of the partition has an output that is read both inside and
    outside the partition. *)
Definition fan_out_safe (g : graph_t) (part : partition) : Prop :=
  ∀ j, j ∈ part_ops part →
    ¬ ((∃ c, c ∈ part_ops part ∧ reads_from g c j)
       ∧ (∃ c, ¬ (c ∈ part_ops part) ∧ reads_from g c j)).

(** Slot [s] of operator [op] satisfies edge [e] under binding [b]. *)
Definition edge_sat (g : graph_t) (p : pattern) (b : binding) (op : op_t)
    (e : pattern_edge) (s : nat) : Prop :=
  slot_allowed op e s = true ∧
  ∃ t pm, input_ids op !! s = Some t ∧ pat_nodes p !! pe_pred e = Some pm ∧
    (is_any (pn_kind pm) = false →
       ∃ j, producer g t = Some j ∧ b !! pe_pred e = Some j).

(** Pattern node [n] is bound to an operator that passes the node's checks
    and holds the node's edges on distinct slots. *)
Definition node_sat (g : graph_t) (claimed : gset nat) (p : pattern) (b : binding)
    (n : nat) : Prop :=
  ∃ o pn op σ, b !! n = Some o ∧ pat_nodes p !! n = Some pn ∧
    ops_ g !! o = Some op ∧ node_accepts g claimed pn o op = true ∧
    NoDup σ ∧ Forall2 (edge_sat g p b op) (pn_edges pn) σ.

Definition binding_inj (b : binding) : Prop :=
  ∀ n1 n2 o, b !! n1 = Some o → b !! n2 = Some o → n1 = n2.

(** Operator [o'] is reached from [o] by walking back from readers to what
    they read. *)
Definition upstream (g : graph_t) : relation nat := rtc (reads_from g).

(** What a match that extends [b] to [b'] guarantees: the old bindings stay,
    distinct nodes keep distinct operators, and every node bound on the way
    is satisfied by an operator for which [ok] holds. *)
Definition match_post (g : graph_t) (claimed : gset nat) (p : pattern)
    (ok : nat → Prop) (b b' : binding) : Prop :=
  b ⊆ b' ∧ (binding_inj b → binding_inj b') ∧
  ∀ m, b !! m = None → is_Some (b' !! m) →
    node_sat g claimed p b' m ∧ ∀ o', b' !! m = Some o' → ok o'.

(** The number of pattern nodes that [b] leaves unbound. *)
Definition unbound (p : pattern) (b : binding) : nat :=
  length (filter (λ n, b !! n = None) (seq 0 (length (pat_nodes p)))).

(** Partition [part] is the rewrite of a match of a pattern of pass [ps]. *)
Definition from_match (g : graph_t) (ps : pass) (part : partition) : Prop :=
  ∃ p claimed r b, p ∈ pass_patterns ps ∧ match_pattern g claimed p r = Some b
                   ∧ part = rewrite g p b.

(** *** Commutative operators *)

Definition swap2 {A} (l : list A) : list A :=
  match l with
  | [a; b] => [b; a]
  | _ => l
  end.

Definition swap_op_inputs (o : op_t) : op_t :=
  {| id_ := id_ o; kind_ := kind_ o; debug_string_ := debug_string_ o;
     inputs_ := swap2 (inputs_ o); outputs_ := outputs_ o;
     attributes_ := attributes_ o |}.

(** The graph in which the two inputs of operator [i] change places. *)
Definition swap_inputs (i : nat) (g : graph_t) : graph_t :=
  {| nodes_ := nodes_ g; ops_ := alter swap_op_inputs i (ops_ g);
     engine_kind_ := engine_kind_ g |}.



(** * Further parts of the sources *)

(** ** [kind2str] (op.hpp) *)

(** [std::vector::at]: the element at [i], or [std::out_of_range]. *)
Definition vector_at {A} (v : list A) (i : N) : outcome A :=
  match v !! N.to_nat i with
  | Some x => Returns x
  | None => Throws
  end.

(** Subtraction of two [size_t] values wraps around. *)
Definition size_t_sub (x y : N) : N := (x + 2 ^ 64 - y) mod 2 ^ 64.

Section kind2str.
(** The numbers of [op_kind::LastSymbol] and [op_kind::any] and the two tables
    of names are declared in c_types_map.hpp, which is not among the sources;
    [kind2str] is read for any values of them.  An operator kind is given by
    its number, as [static_cast<size_t>] does. *)
Variable LastSymbol : N.
Variable any_kind : N.
Variable op_kind_strings : list string.
Variable internal_op_strings : list string.

Definition kind2str (kind : N) : outcome string :=
  let k := kind in
  let l := LastSymbol in
  let a := any_kind in
  if k <=? l then vector_at op_kind_strings k
  else vector_at internal_op_strings (size_t_sub k a).
End kind2str.

(** ** Nodes of a graph (graph.hpp) *)

Definition with_nodes (ns : list node_t) (g : graph_t) : graph_t :=
  {| nodes_ := ns; ops_ := ops_ g; engine_kind_ := engine_kind_ g |}.

Definition get_nodes (g : graph_t) : list node_t := nodes_ g.

Definition num_nodes (g : graph_t) : nat := length (nodes_ g).

(** Modelled from the spec: the methods of [node_t] that [create_node(op)]
    calls on the node it makes (ir.hpp is not among the sources): the
    constructor [node_t(id, kind)] records the kind, and [add_op_ids],
    [add_input_tensors] and [add_output_tensors] append. *)
Definition mk_node (i : N) (k : op_kind_t) : node_t :=
  {| node_op_ids := []; node_kind := k; node_inputs := []; node_outputs := [] |}.

Definition add_op_ids (i : N) (n : node_t) : node_t :=
  {| node_op_ids := node_op_ids n ++ [i]; node_kind := node_kind n;
     node_inputs := node_inputs n; node_outputs := node_outputs n |}.

Definition add_input_tensors (ts : list logical_tensor_t) (n : node_t) : node_t :=
  {| node_op_ids := node_op_ids n; node_kind := node_kind n;
     node_inputs := node_inputs n ++ ts; node_outputs := node_outputs n |}.

Definition add_output_tensors (ts : list logical_tensor_t) (n : node_t) : node_t :=
  {| node_op_ids := node_op_ids n; node_kind := node_kind n;
     node_inputs := node_inputs n; node_outputs := node_outputs n ++ ts |}.

Section nodes.
(** The constructor [node_t(kind)] and the method [parse_op_attr] are defined
    in ir.hpp; the functions of the graph are read for any such two.  A
    pointer to a node of the graph is the position of the node in [nodes_]; a
    position past the end stands for a pointer to no node of the graph. *)
Variable node_of_kind : op_kind_t → node_t.
Variable parse_op_attr : op_t → node_t → node_t.

(** [create_node(kind)]: the pointer returned and the graph afterwards. *)
Definition create_node_kind (aop_kind : op_kind_t) (g : graph_t) : nat * graph_t :=
  let nodes := nodes_ g ++ [node_of_kind aop_kind] in
  (pred (length nodes), with_nodes nodes g).

(** The loop of [create_node(op)] over the nodes: the position of the first
    node whose first op id is that of [lop], if there is one.  [front()] of a
    node without op ids is undefined; the loop has no result then. *)
Fixpoint find_node (lop_id : N) (ns : list node_t) : option (option nat) :=
  match ns with
  | [] => Some None
  | n :: ns =>
      match head (node_op_ids n) with
      | None => None
      | Some front =>
          if front =? lop_id then Some (Some O)
          else fmap (M := option) S <$> find_node lop_id ns
      end
  end.

(** The node [create_node(op)] makes when it has found none. *)
Definition node_of_op (lop : op_t) : node_t :=
  let anode := mk_node (id_ lop) (kind_ lop) in
  let anode := parse_op_attr lop anode in
  let anode := add_op_ids (id_ lop) anode in
  let anode := add_input_tensors (inputs_ lop) anode in
  add_output_tensors (outputs_ lop) anode.

(** [create_node(op)]: the pointer returned and the graph afterwards. *)
Definition create_node_op (lop : op_t) (g : graph_t) : option (nat * graph_t) :=
  match find_node (id_ lop) (nodes_ g) with
  | None => None
  | Some (Some pos) =>
      Some (pos, with_nodes (alter (parse_op_attr lop) pos (nodes_ g)) g)
  | Some None =>
      Some (length (nodes_ g), with_nodes (nodes_ g ++ [node_of_op lop]) g)
  end.

(** [delete_node(anode)]: erase the node the pointer is found at. *)
Definition delete_node (anode : nat) (g : graph_t) : graph_t :=
  match nodes_ g !! anode with
  | Some _ => with_nodes (delete anode (nodes_ g)) g
  | None => g
  end.
End nodes.

(** The node carries an op id. *)
Definition has_op_id (n : node_t) : Prop := node_op_ids n ≠ [].

(** The first op ids of the nodes, for the nodes that have one. *)
Definition front_op_ids (g : graph_t) : list N :=
  omap (λ n, head (node_op_ids n)) (nodes_ g).

(** ** Executables of compiled operators (compile_ops.hpp) *)

Definition INT64_MAX : Z := (2 ^ 63 - 1)%Z.

Section executable_mgr.
(** [op_executable_t] is declared in op_executable.hpp, which is not among
    the sources.  A [std::shared_ptr] to one is empty or holds one. *)
Variable op_executable_t : Type.

Definition shared_ptr : Type := option op_executable_t.

Record executable_mgr_t : Type := {
  data_ : gmap Z shared_ptr;
  counter : Z
}.

(** The manager after its default constructor. *)
Definition executable_mgr_init : executable_mgr_t :=
  {| data_ := ∅; counter := 0 |}.

(** [std::unordered_map::insert]: a key that is present keeps its value. *)
Definition unordered_map_insert (key : Z) (p : shared_ptr)
    (m : gmap Z shared_ptr) : gmap Z shared_ptr :=
  match m !! key with
  | Some _ => m
  | None => <[key := p]> m
  end.

(** [init_executable]: the key returned, which is the key of the element
    [insert] points to, and the manager afterwards.  [counter++] at the
    largest [int64_t] is undefined; there is no result then. *)
Definition init_executable (m : executable_mgr_t) : option (Z * executable_mgr_t) :=
  if decide (counter m < INT64_MAX)%Z then
    Some (counter m,
          {| data_ := unordered_map_insert (counter m) None (data_ m);
             counter := (counter m + 1)%Z |})
  else None.

(** [get_executable(key)]: [operator[]] makes an empty pointer under a key
    that is absent; the pointer the returned reference reads, and the manager
    afterwards. *)
Definition get_executable (key : Z) (m : executable_mgr_t)
  : shared_ptr * executable_mgr_t :=
  match data_ m !! key with
  | Some p => (p, m)
  | None => (None, {| data_ := <[key := None]> (data_ m); counter := counter m |})
  end.

(** An assignment [get_executable(key) = p] through the returned
    reference. *)
Definition assign_executable (key : Z) (p : shared_ptr) (m : executable_mgr_t)
  : executable_mgr_t :=
  let m := (get_executable key m).2 in
  {| data_ := <[key := p]> (data_ m); counter := counter m |}.

(** [n] calls of [init_executable] in a row: the keys returned, in order. *)
Fixpoint init_executables (n : nat) (m : executable_mgr_t)
  : option (list Z * executable_mgr_t) :=
  match n with
  | O => Some ([], m)
  | S n =>
      match init_executable m with
      | None => None
      | Some (key, m) =>
          match init_executables n m with
          | None => None
          | Some (keys, m) => Some (key :: keys, m)
          end
      end
  end.

(** The keys of the manager are the keys [init_executable] has returned. *)
Definition keys_issued (m : executable_mgr_t) : Prop :=
  (0 ≤ counter m)%Z ∧ ∀ k, is_Some (data_ m !! k) ↔ (0 ≤ k < counter m)%Z.
End executable_mgr.

Arguments data_ {_} _.
Arguments counter {_} _.
Arguments executable_mgr_init {_}.
Arguments unordered_map_insert {_} _ _ _.
Arguments init_executable {_} _.
Arguments get_executable {_} _ _.
Arguments assign_executable {_} _ _ _.
Arguments init_executables {_} _ _.
Arguments keys_issued {_} _.

(** ** Kernels of the DNNL backend (operators/eltwise.hpp, layernorm.hpp) *)

(** A method of a kernel reads and writes a state, which holds the fields of
    the kernel and the logical tensors the method writes through to, and it
    returns or throws; what it wrote before a throw stays written. *)
Definition kernel_m (S A : Type) : Type := S → S * outcome A.

#[global] Instance kernel_ret {S} : MRet (kernel_m S) := λ A a s, (s, Returns a).

#[global] Instance kernel_bind {S} : MBind (kernel_m S) := λ A B f m s,
  match m s with
  | (s', Returns a) => f a s'
  | (s', Throws) => (s', Throws)
  end.

Definition throw {S A} : kernel_m S A := λ s, (s, Throws).

(** A call that returns or throws and leaves the state alone. *)
Definition lift {S A} (o : outcome A) : kernel_m S A := λ s, (s, o).

Definition gets {S A} (f : S → A) : kernel_m S A := λ s, (s, Returns (f s)).

Definition modify {S} (f : S → S) : kernel_m S () := λ s, (f s, Returns ()).

(** The enumerations of dnnl.hpp, as far as the kernels name their values. *)
Module prop_kind.
Inductive t : Set := forward_training | forward_inference.
(** dnnl.hpp gives [forward] as another name of [forward_training]. *)
Definition forward : t := forward_training.
End prop_kind.

Module algorithm.
Inductive t : Set :=
  | eltwise_abs | eltwise_elu | eltwise_exp | eltwise_gelu_erf | eltwise_clip
  | eltwise_log | eltwise_pow | eltwise_relu | eltwise_sqrt | eltwise_square
  | eltwise_tanh.
End algorithm.

Module normalization_flag.
Inductive t : Set := none | use_scale_shift.
End normalization_flag.

(** The operator kinds eltwise.hpp names: kinds of [op_kind_t], and four
    kinds of c_types_map.hpp that the graphs above do not use. *)
Inductive kernel_op_kind_t : Set :=
  | public_kind (k : op_kind_t)
  | Exp
  | Log
  | ReLUBackprop
  | GELUBackprop.

(** What the kernels ask of the node, or operator, they are compiled for.
    The classes are defined in ir.hpp, which is not among the sources:
    [has_attr(name)], the typed [get_attr<T>(name)], which returns the value
    or throws, and [get_op_kind()]. *)
Class node_attributes (A : Type) : Type := {
  has_attr : string → A → bool;
  get_attr_value : ∀ T : attribute_kind_t, string → A → outcome (attr_type T);
  get_op_kind : A → kernel_op_kind_t
}.

(** An operator of op.hpp read through this interface. *)
#[global] Instance op_node_attributes : node_attributes op_t := {|
  has_attr name o := bool_decide (is_Some (attributes_ o !! name));
  get_attr_value T name o :=
    match get_attr T name o with
    | Returns (_, Some v) => Returns v
    | _ => Throws
    end;
  get_op_kind o := public_kind (kind_ o)
|}.

(** What the kernels call of dnnl.hpp and tensor.hpp, which are not among
    the sources; each call returns or throws.  [desc_of] is the constructor
    [tensor::desc {lt}]; a primitive descriptor is made from the arguments of
    its operation descriptor and an engine. *)
Class dnnl_lib : Type := {
  engine_t : Type;
  dnnl_engine : Type;
  tensor_desc : Type;
  make_dnnl_engine : engine_t → outcome dnnl_engine;
  desc_of : logical_tensor_t → outcome tensor_desc;
  fill_layout_info : logical_tensor_t → tensor_desc → outcome logical_tensor_t;
  eltwise_forward_pd : Type;
  eltwise_forward_primitive_desc :
    prop_kind.t → algorithm.t → tensor_desc → Q → Q → dnnl_engine
    → outcome eltwise_forward_pd;
  eltwise_forward_dst_desc : eltwise_forward_pd → outcome tensor_desc;
  eltwise_backward_pd : Type;
  eltwise_backward_primitive_desc :
    algorithm.t → tensor_desc → tensor_desc → Q → Q → dnnl_engine
    → eltwise_forward_pd → outcome eltwise_backward_pd;
  eltwise_backward_diff_src_desc : eltwise_backward_pd → outcome tensor_desc;
  layernorm_pd : Type;
  layernorm_primitive_desc :
    prop_kind.t → tensor_desc → Q → normalization_flag.t → dnnl_engine
    → outcome layernorm_pd;
  layernorm_dst_desc : layernorm_pd → outcome tensor_desc;
  layernorm_mean_desc : layernorm_pd → outcome tensor_desc;
  layernorm_variance_desc : layernorm_pd → outcome tensor_desc
}.

(** [BACKEND_DNNL_ENFORCE(0, message)] throws. *)
Definition BACKEND_DNNL_ENFORCE_0 {S A} : kernel_m S A := throw.

(** [fill_layout_info(&outputs.at(i), desc)], writing through the pointer. *)
Definition fill_output `{dnnl_lib} {K} (i : N) (desc : tensor_desc)
  : kernel_m (K * list logical_tensor_t) () :=
  outputs ← gets snd;
  ori_lt ← lift (vector_at outputs i);
  filled ← lift (fill_layout_info ori_lt desc);
  modify (λ s, (s.1, <[N.to_nat i := filled]> s.2)).

Module eltwise.
Definition kSrc : N := 0.
Definition kDst : N := 0.
End eltwise.

Module eltwise_forward.
Section eltwise_forward.
Context `{dnnl_lib} {node : Type} `{!node_attributes node}.

(** The fields [compile_impl] reads or writes. *)
Record t : Type := {
  pd_ : eltwise_forward_pd;
  algo_ : algorithm.t;
  alpha_ : Q;
  beta_ : Q;
  prop_kind_ : prop_kind.t;
  p_engine_ : dnnl_engine
}.

Definition set_pd_ (v : eltwise_forward_pd) (k : t) : t :=
  {| pd_ := v; algo_ := algo_ k; alpha_ := alpha_ k; beta_ := beta_ k;
     prop_kind_ := prop_kind_ k; p_engine_ := p_engine_ k |}.

Definition set_algo_ (v : algorithm.t) (k : t) : t :=
  {| pd_ := pd_ k; algo_ := v; alpha_ := alpha_ k; beta_ := beta_ k;
     prop_kind_ := prop_kind_ k; p_engine_ := p_engine_ k |}.

Definition set_alpha_ (v : Q) (k : t) : t :=
  {| pd_ := pd_ k; algo_ := algo_ k; alpha_ := v; beta_ := beta_ k;
     prop_kind_ := prop_kind_ k; p_engine_ := p_engine_ k |}.

Definition set_beta_ (v : Q) (k : t) : t :=
  {| pd_ := pd_ k; algo_ := algo_ k; alpha_ := alpha_ k; beta_ := v;
     prop_kind_ := prop_kind_ k; p_engine_ := p_engine_ k |}.

Definition set_p_engine_ (v : dnnl_engine) (k : t) : t :=
  {| pd_ := pd_ k; algo_ := algo_ k; alpha_ := alpha_ k; beta_ := beta_ k;
     prop_kind_ := prop_kind_ k; p_engine_ := v |}.

(** An assignment to a field of the kernel. *)
Definition assign (f : t → t) : kernel_m (t * list logical_tensor_t) () :=
  modify (λ s, (f s.1, s.2)).

(** The [switch] of [compile_impl] over the kind of the node. *)
Definition algorithm_of (kind : kernel_op_kind_t) : option algorithm.t :=
  match kind with
  | public_kind Abs => Some algorithm.eltwise_abs
  | public_kind Elu => Some algorithm.eltwise_elu
  | Exp => Some algorithm.eltwise_exp
  | public_kind GELU => Some algorithm.eltwise_gelu_erf
  | public_kind HardTanh => Some algorithm.eltwise_clip
  | Log => Some algorithm.eltwise_log
  | public_kind Pow => Some algorithm.eltwise_pow
  | public_kind ReLU => Some algorithm.eltwise_relu
  | public_kind Sqrt => Some algorithm.eltwise_sqrt
  | public_kind Square => Some algorithm.eltwise_square
  | public_kind Tanh => Some algorithm.eltwise_tanh
  | _ => None
  end.

(** [compile_impl]; the state is the kernel and the vector [outputs]. *)
Definition compile_impl (anode : node) (g_engine : engine_t)
    (inputs : list logical_tensor_t)
  : kernel_m (t * list logical_tensor_t) status_t :=
  src_lt ← lift (vector_at inputs eltwise.kSrc);
  src ← lift (desc_of src_lt);
  engine ← lift (make_dnnl_engine g_engine);
  _ ← assign (set_p_engine_ engine);
  _ ← (if has_attr "alpha" anode then
         v ← lift (get_attr_value ak_f "alpha" anode); assign (set_alpha_ v)
       else if has_attr "min" anode then
         v ← lift (get_attr_value ak_f "min" anode); assign (set_alpha_ v)
       else mret ());
  _ ← (if has_attr "beta" anode then
         v ← lift (get_attr_value ak_f "beta" anode); assign (set_beta_ v)
       else if has_attr "max" anode then
         v ← lift (get_attr_value ak_f "max" anode); assign (set_beta_ v)
       else mret ());
  let kind := get_op_kind anode in
  _ ← match algorithm_of kind with
      | Some algo => assign (set_algo_ algo)
      | None => BACKEND_DNNL_ENFORCE_0
      end;
  k ← gets fst;
  pd ← lift (eltwise_forward_primitive_desc (prop_kind_ k) (algo_ k) src
               (alpha_ k) (beta_ k) (p_engine_ k));
  _ ← assign (set_pd_ pd);
  optimal_dst_desc ← lift (eltwise_forward_dst_desc pd);
  _ ← fill_output eltwise.kDst optimal_dst_desc;
  mret success.
End eltwise_forward.
End eltwise_forward.

Module eltwise_backward.
Section eltwise_backward.
Context `{dnnl_lib} {node : Type} `{!node_attributes node}.

Record t : Type := {
  algo_ : algorithm.t;
  alpha_ : Q;
  beta_ : Q;
  pd_ : eltwise_backward_pd;
  p_engine_ : dnnl_engine
}.

Definition set_algo_ (v : algorithm.t) (k : t) : t :=
  {| algo_ := v; alpha_ := alpha_ k; beta_ := beta_ k; pd_ := pd_ k;
     p_engine_ := p_engine_ k |}.

Definition set_alpha_ (v : Q) (k : t) : t :=
  {| algo_ := algo_ k; alpha_ := v; beta_ := beta_ k; pd_ := pd_ k;
     p_engine_ := p_engine_ k |}.

Definition set_beta_ (v : Q) (k : t) : t :=
  {| algo_ := algo_ k; alpha_ := alpha_ k; beta_ := v; pd_ := pd_ k;
     p_engine_ := p_engine_ k |}.

Definition set_pd_ (v : eltwise_backward_pd) (k : t) : t :=
  {| algo_ := algo_ k; alpha_ := alpha_ k; beta_ := beta_ k; pd_ := v;
     p_engine_ := p_engine_ k |}.

Definition set_p_engine_ (v : dnnl_engine) (k : t) : t :=
  {| algo_ := algo_ k; alpha_ := alpha_ k; beta_ := beta_ k; pd_ := pd_ k;
     p_engine_ := v |}.

Definition assign (f : t → t) : kernel_m (t * list logical_tensor_t) () :=
  modify (λ s, (f s.1, s.2)).

(** The [switch] of [get_config]. *)
Definition algorithm_of (kind : kernel_op_kind_t) : option algorithm.t :=
  match kind with
  | ReLUBackprop => Some algorithm.eltwise_relu
  | GELUBackprop => Some algorithm.eltwise_gelu_erf
  | _ => None
  end.

Definition get_config (src : tensor_desc) (kind : kernel_op_kind_t)
    (p_engine : dnnl_engine) (alpha beta : Q)
  : kernel_m (t * list logical_tensor_t) eltwise_backward_pd :=
  _ ← match algorithm_of kind with
      | Some algo => assign (set_algo_ algo)
      | None => BACKEND_DNNL_ENFORCE_0
      end;
  _ ← assign (set_alpha_ alpha);
  _ ← assign (set_beta_ beta);
  k ← gets fst;
  let func (algo : algorithm.t) (alpha beta : Q)
    : kernel_m (t * list logical_tensor_t) eltwise_backward_pd :=
    forward_hints ← lift (eltwise_forward_primitive_desc
                            prop_kind.forward_training algo src alpha beta p_engine);
    dst_desc ← lift (eltwise_forward_dst_desc forward_hints);
    lift (eltwise_backward_primitive_desc algo dst_desc src alpha beta p_engine
            forward_hints) in
  func (algo_ k) alpha beta.

Definition compile_impl (anode : node) (g_engine : engine_t)
    (inputs : list logical_tensor_t)
  : kernel_m (t * list logical_tensor_t) status_t :=
  src_lt ← lift (vector_at inputs (eltwise.kSrc + 1));
  src ← lift (desc_of src_lt);
  let kind := get_op_kind anode in
  engine ← lift (make_dnnl_engine g_engine);
  _ ← assign (set_p_engine_ engine);
  k ← gets fst;
  pd ← get_config src kind (p_engine_ k) 0 0;
  _ ← assign (set_pd_ pd);
  optimal_diff_src ← lift (eltwise_backward_diff_src_desc pd);
  _ ← fill_output eltwise.kSrc optimal_diff_src;
  mret success.
End eltwise_backward.
End eltwise_backward.

Module layernorm.
Definition kSrc : N := 0.
Definition kScale : N := 1.
Definition kShift : N := 2.
Definition kDst : N := 0.
Definition kMean : N := 1.
Definition kVariance : N := 2.
End layernorm.

Module layer_normalization_forward.
Section layer_normalization_forward.
Context `{dnnl_lib} {op : Type} `{!node_attributes op}.

(** The fields [compile_impl] reads or writes; the tensors and the stream
    that only [execute_impl] and [compute] use are left out. *)
Record t : Type := {
  pd_ : layernorm_pd;
  epsilon_ : Q;
  begin_norm_axis_ : Z;
  use_affine_ : bool;
  keep_stats_ : bool;
  p_engine_ : dnnl_engine
}.

(** The default member initialisers; [epsilon_] is the [float] literal
    [0.00001f]. *)
Definition init (pd : layernorm_pd) (engine : dnnl_engine) : t :=
  {| pd_ := pd; epsilon_ := 2748779 # 274877906944; begin_norm_axis_ := -1;
     use_affine_ := true; keep_stats_ := true; p_engine_ := engine |}.

Definition set_pd_ (v : layernorm_pd) (k : t) : t :=
  {| pd_ := v; epsilon_ := epsilon_ k; begin_norm_axis_ := begin_norm_axis_ k;
     use_affine_ := use_affine_ k; keep_stats_ := keep_stats_ k;
     p_engine_ := p_engine_ k |}.

Definition set_epsilon_ (v : Q) (k : t) : t :=
  {| pd_ := pd_ k; epsilon_ := v; begin_norm_axis_ := begin_norm_axis_ k;
     use_affine_ := use_affine_ k; keep_stats_ := keep_stats_ k;
     p_engine_ := p_engine_ k |}.

Definition set_begin_norm_axis_ (v : Z) (k : t) : t :=
  {| pd_ := pd_ k; epsilon_ := epsilon_ k; begin_norm_axis_ := v;
     use_affine_ := use_affine_ k; keep_stats_ := keep_stats_ k;
     p_engine_ := p_engine_ k |}.

Definition set_use_affine_ (v : bool) (k : t) : t :=
  {| pd_ := pd_ k; epsilon_ := epsilon_ k; begin_norm_axis_ := begin_norm_axis_ k;
     use_affine_ := v; keep_stats_ := keep_stats_ k; p_engine_ := p_engine_ k |}.

Definition set_keep_stats_ (v : bool) (k : t) : t :=
  {| pd_ := pd_ k; epsilon_ := epsilon_ k; begin_norm_axis_ := begin_norm_axis_ k;
     use_affine_ := use_affine_ k; keep_stats_ := v; p_engine_ := p_engine_ k |}.

Definition set_p_engine_ (v : dnnl_engine) (k : t) : t :=
  {| pd_ := pd_ k; epsilon_ := epsilon_ k; begin_norm_axis_ := begin_norm_axis_ k;
     use_affine_ := use_affine_ k; keep_stats_ := keep_stats_ k; p_engine_ := v |}.

Definition assign (f : t → t) : kernel_m (t * list logical_tensor_t) () :=
  modify (λ s, (f s.1, s.2)).

(** [if (op->has_attr(name)) field = op->get_attr<T>(name);] *)
Definition assign_attr (T : attribute_kind_t) (name : string)
    (set : attr_type T → t → t) (aop : op)
  : kernel_m (t * list logical_tensor_t) () :=
  if has_attr name aop then
    v ← lift (get_attr_value T name aop); assign (set v)
  else mret ().

(** [compile_impl]; the state is the kernel and the vector [outputs]. *)
Definition compile_impl (aop : op) (g_engine : engine_t)
    (inputs : list logical_tensor_t)
  : kernel_m (t * list logical_tensor_t) status_t :=
  src_lt ← lift (vector_at inputs layernorm.kSrc);
  src ← lift (desc_of src_lt);
  outputs ← gets snd;
  dst_lt ← lift (vector_at outputs layernorm.kDst);
  dst ← lift (desc_of dst_lt);
  _ ← assign_attr ak_f "epsilon" set_epsilon_ aop;
  _ ← assign_attr ak_i "begin_norm_axis" set_begin_norm_axis_ aop;
  _ ← assign_attr ak_b "keep_stats" set_keep_stats_ aop;
  _ ← assign_attr ak_b "use_affine" set_use_affine_ aop;
  engine ← lift (make_dnnl_engine g_engine);
  _ ← assign (set_p_engine_ engine);
  k ← gets fst;
  let flags := normalization_flag.none in
  let flags := if use_affine_ k then normalization_flag.use_scale_shift else flags in
  pd ← (if keep_stats_ k then
          lift (layernorm_primitive_desc prop_kind.forward_training src
                  (epsilon_ k) flags (p_engine_ k))
        else
          lift (layernorm_primitive_desc prop_kind.forward_inference src
                  (epsilon_ k) flags (p_engine_ k)));
  _ ← assign (set_pd_ pd);
  optimal_dst_desc ← lift (layernorm_dst_desc pd);
  _ ← fill_output layernorm.kDst optimal_dst_desc;
  _ ← (if keep_stats_ k then
         outputs ← gets snd;
         _ ← (if (length outputs <? 3)%nat then BACKEND_DNNL_ENFORCE_0 else mret ());
         optimal_mean_desc ← lift (layernorm_mean_desc pd);
         _ ← fill_output layernorm.kMean optimal_mean_desc;
         optimal_var_desc ← lift (layernorm_variance_desc pd);
         fill_output layernorm.kVariance optimal_var_desc
       else mret ());
  mret success.
End layer_normalization_forward.
End layer_normalization_forward.

(** *** A library and a node for examples *)

(** A stand-in for the library in which every call returns: a tensor
    descriptor is the logical tensor it was made from, a primitive descriptor
    is the tuple of its arguments, and [fill_layout_info] copies type, shape
    and layout of the descriptor. *)
Definition example_dnnl : dnnl_lib := {|
  engine_t := engine_kind_t;
  dnnl_engine := engine_kind_t;
  tensor_desc := logical_tensor_t;
  make_dnnl_engine := Returns;
  desc_of := Returns;
  fill_layout_info ori_lt desc :=
    Returns {| lt_id := lt_id ori_lt; lt_data_type := lt_data_type desc;
               lt_dims := lt_dims desc; lt_layout_type := lt_layout_type desc |};
  eltwise_forward_pd := prop_kind.t * algorithm.t * logical_tensor_t * (Q * Q);
  eltwise_forward_primitive_desc p algo src alpha beta _ :=
    Returns (p, algo, src, (alpha, beta));
  eltwise_forward_dst_desc pd := Returns pd.1.2;
  eltwise_backward_pd := algorithm.t * logical_tensor_t * (Q * Q);
  eltwise_backward_primitive_desc algo _ src alpha beta _ _ :=
    Returns (algo, src, (alpha, beta));
  eltwise_backward_diff_src_desc pd := Returns pd.1.2;
  layernorm_pd := prop_kind.t * logical_tensor_t * Q * normalization_flag.t;
  layernorm_primitive_desc p src epsilon flags _ := Returns (p, src, epsilon, flags);
  layernorm_dst_desc pd := Returns pd.1.1.2;
  layernorm_mean_desc pd := Returns pd.1.1.2;
  layernorm_variance_desc pd := Returns pd.1.1.2
|}.

(** A node that is its kind and its attributes. *)
Record example_node : Type := {
  en_kind : kernel_op_kind_t;
  en_attrs : gmap string attribute_value
}.

#[global] Instance example_node_attributes : node_attributes example_node := {|
  has_attr name n := bool_decide (is_Some (en_attrs n !! name));
  get_attr_value T name n :=
    match en_attrs n !! name ≫= attribute_value_get T with
    | Some v => Returns v
    | None => Throws
    end;
  get_op_kind := en_kind
|}.

(** Kernels before their first [compile_impl]. *)
Definition example_eltwise_forward : @eltwise_forward.t example_dnnl :=
  @eltwise_forward.Build_t example_dnnl
    (prop_kind.forward, algorithm.eltwise_abs, lt 0, (0, 0)%Q)
    algorithm.eltwise_abs 0 0 prop_kind.forward cpu.

Definition example_eltwise_backward : @eltwise_backward.t example_dnnl :=
  @eltwise_backward.Build_t example_dnnl algorithm.eltwise_abs 1 1
    (algorithm.eltwise_abs, lt 0, (0, 0)%Q) cpu.

Definition example_layernorm : @layer_normalization_forward.t example_dnnl :=
  @layer_normalization_forward.init example_dnnl
    (prop_kind.forward_inference, lt 0, 0%Q, normalization_flag.none) cpu.

(** ** Utilities of test_pass.cpp *)

(** The [while] loop of [create_logical_tensors]; [fuel] bounds the number of
    its iterations.  [count] stays below [num_lt], a [size_t], so that
    [count++] does not wrap. *)
Fixpoint create_logical_tensors_loop (fuel : nat) (num_lt count : N)
    (lt_vec : list logical_tensor_t) : option (list logical_tensor_t) :=
  if count <? num_lt then
    match fuel with
    | O => None
    | S fuel =>
        create_logical_tensors_loop fuel num_lt (count + 1)
          (lt_vec ++ [logical_tensor_init count f32])
    end
  else Some lt_vec.

Section create_logical_tensors.
(** [lt_vec.reserve(num_lt)] returns, or throws [std::length_error] beyond
    [max_size()] or [std::bad_alloc] when the storage is not to be had; which
    numbers it takes is the library's.  After it [emplace_back] finds the
    capacity it needs. *)
Variable reserve : N → outcome ().

(** [create_logical_tensors(num_lt)]: the vector returned, or the throw of
    [reserve]; [None] would be the loop out of fuel. *)
Definition create_logical_tensors (num_lt : N)
  : option (outcome (list logical_tensor_t)) :=
  match reserve num_lt with
  | Throws => Some Throws
  | Returns _ =>
      Returns <$> create_logical_tensors_loop (N.to_nat num_lt) num_lt 0 []
  end.
End create_logical_tensors.

(** A [reserve] that takes the numbers up to [max_size]. *)
Definition reserve_up_to (max_size : N) (n : N) : outcome () :=
  if n <=? max_size then Returns () else Throws.

(** ** Vocabulary of the further properties *)

(** What holds of the state and the result whenever [m] returns from [s]. *)
Definition kernel_post {S A} (m : kernel_m S A) (s : S) (P : S → A → Prop) : Prop :=
  match m s with
  | (s', Returns a) => P s' a
  | (_, Throws) => True
  end.

(** [new] is the value of the attribute [name] when the node has it, and
    [old] otherwise. *)
Definition attr_or `{node_attributes A} (T : attribute_kind_t) (name : string)
    (anode : A) (old new : attr_type T) : Prop :=
  if has_attr name anode then get_attr_value T name anode = Returns new
  else new = old.

(** [new] is the value of the attribute [first] when the node has it, else
    that of [second] when the node has it, and [old] otherwise. *)
Definition attr_or2 `{node_attributes A} (T : attribute_kind_t)
    (first second : string) (anode : A) (old new : attr_type T) : Prop :=
  if has_attr first anode then get_attr_value T first anode = Returns new
  else attr_or T second anode old new.

(** A sequence of calls of [add_input] (left) and [add_output] (right). *)
Definition add_io (calls : list (logical_tensor_t + logical_tensor_t)) (o : op_t)
  : op_t :=
  foldl (λ o c, match c with
                | inl t => add_input t o
                | inr t => add_output t o
                end) o calls.

(** The schemas of [reg] leave the id, respectively the kind, of an operator
    alone when they set its defaults. *)
Definition keeps_id (reg : op_schema_registry) : Prop :=
  ∀ k opm o, reg k = Some opm → id_ (set_default_attribute opm o) = id_ o.

Definition keeps_kind (reg : op_schema_registry) : Prop :=
  ∀ k opm o, reg k = Some opm → kind_ (set_default_attribute opm o) = kind_ o.

(** The schema of the kind of [o], if there is one, verifies [o]. *)
Definition verified (reg : op_schema_registry) (o : op_t) : bool :=
  match reg (kind_ o) with
  | Some opm => verify opm o
  | None => true
  end.

(** * Proofs *)

(** ** Operators and graphs *)

Lemma set_attr_insert name a o :
  attributes_ (set_attr name a o) = <[name := a]> (attributes_ o).
Proof.
  unfold set_attr, map_insert_new.
  destruct (attributes_ o !! name) as [old|] eqn:E; simpl; [|done].
  apply map_eq. intros k. rewrite lookup_alter, lookup_insert.
  case_decide; subst; [by rewrite E|done].
Qed.

Lemma filter_key_singleton {A} (k : string) (l : list (string * A)) :
  NoDup l.*1 → k ∈ l.*1 → length (filter (λ kv, kv.1 = k) l) = 1%nat.
Proof.
  induction l as [|[k' v] l IH]; simpl; intros Hnd Hin.
  - by apply elem_of_nil in Hin.
  - apply NoDup_cons in Hnd as [Hk' Hnd].
    rewrite filter_cons. simpl. case_decide as Hk; subst.
    + simpl. f_equal. apply length_zero_iff_nil, elem_of_nil_inv.
      intros [k2 v2] [Hk2 Hin2]%list_elem_of_filter. simpl in Hk2. subst.
      apply Hk', list_elem_of_fmap. by exists (k, v2).
    + apply IH; [done|]. apply elem_of_cons in Hin as [?|?]; [congruence|done].
Qed.

(** C10: [set_attr] with a name that is already present replaces the stored
    value.  After [set_attr name a] the attribute map holds [a] under [name],
    every other name is as before, exactly one entry has the key [name], no
    two entries share a key, and the size grows by one only when [name] was
    absent; id, kind, inputs and outputs of the operator are untouched. *)
Theorem set_attr_replaces (name : string) (a : attribute_value) (o : op_t) :
  attributes_ (set_attr name a o) !! name = Some a
  ∧ (∀ name', name' ≠ name →
       attributes_ (set_attr name a o) !! name' = attributes_ o !! name')
  ∧ length (filter (λ kv, kv.1 = name)
              (map_to_list (attributes_ (set_attr name a o)))) = 1%nat
  ∧ NoDup (map_to_list (attributes_ (set_attr name a o))).*1
  ∧ size (attributes_ (set_attr name a o))
    = match attributes_ o !! name with
      | Some _ => size (attributes_ o)
      | None => S (size (attributes_ o))
      end
  ∧ (id_ (set_attr name a o), kind_ (set_attr name a o),
     inputs_ (set_attr name a o), outputs_ (set_attr name a o))
    = (id_ o, kind_ o, inputs_ o, outputs_ o).
Proof.
  rewrite set_attr_insert. repeat split.
  - apply lookup_insert_eq.
  - intros name' Hne. by apply lookup_insert_ne.
  - apply filter_key_singleton; [apply NoDup_fst_map_to_list|].
    apply list_elem_of_fmap. exists (name, a). split; [done|].
    apply elem_of_map_to_list, lookup_insert_eq.
  - apply NoDup_fst_map_to_list.
  - destruct (attributes_ o !! name) eqn:E.
    + by apply map_size_insert_Some.
    + by apply map_size_insert_None.
  - unfold set_attr. by destruct (attributes_ o !! name).
Qed.

Lemma set_attr_replaces_witness :
  attributes_ (set_attr "max" (attr_f 5) (hardtanh_op 2 0 6 [4] 5)) !! "min"
  = Some (attr_f 0).
Proof.
  rewrite (proj1 (proj2 (set_attr_replaces "max" (attr_f 5) (hardtanh_op 2 0 6 [4] 5))));
    [vm_compute; reflexivity | discriminate].
Defined.

Lemma attribute_value_get_pack T v : attribute_value_get T (attr_pack T v) = Some v.
Proof. by destruct T. Qed.

Lemma attribute_value_get_mismatch T a : get_kind a ≠ T → attribute_value_get T a = None.
Proof. by destruct T, a. Qed.

(** C8 (amended): [get_attr<T>] returns [invalid_argument] exactly when no
    attribute of that name exists; when the stored attribute has tag [T] it
    returns [success] and yields the stored value; when the stored attribute
    has another tag, [get_attr] makes no check of its own and returns no
    status: the typed accessor of the attribute value fails inside it. *)
Theorem get_attr_typed (T : attribute_kind_t) (name : string) (o : op_t) :
  (attributes_ o !! name = None →
     get_attr T name o = Returns (invalid_argument, None))
  ∧ (∀ v, attributes_ o !! name = Some (attr_pack T v) →
       get_attr T name o = Returns (success, Some v))
  ∧ (∀ a, attributes_ o !! name = Some a → get_kind a ≠ T →
       get_attr T name o = Throws)
  ∧ ((∃ out, get_attr T name o = Returns (invalid_argument, out))
     ↔ attributes_ o !! name = None).
Proof.
  unfold get_attr. repeat split.
  - by intros ->.
  - intros v ->. by rewrite attribute_value_get_pack.
  - intros a -> Hk. by rewrite attribute_value_get_mismatch.
  - intros [out H]. destruct (attributes_ o !! name) as [a|]; [|done].
    by destruct (attribute_value_get T a).
  - intros ->. by eexists.
Qed.

Lemma get_attr_typed_witness :
  get_attr ak_f "max" (hardtanh_op 2 0 6 [4] 5) = Returns (success, Some 6%Q).
Proof.
  apply (proj1 (proj2 (get_attr_typed ak_f "max" (hardtanh_op 2 0 6 [4] 5))) 6%Q).
  vm_compute. reflexivity.
Defined.

Lemma get_attr_wrong_tag_counterexample :
  attributes_ (hardtanh_op 2 0 6 [4] 5) !! "min" = Some (attr_f 0)
  ∧ get_kind (attr_f 0) ≠ ak_i
  ∧ get_attr ak_i "min" (hardtanh_op 2 0 6 [4] 5) = Throws
  ∧ get_attr ak_i "min" (hardtanh_op 2 0 6 [4] 5) ≠ Returns (invalid_argument, None).
Proof.
  split_and!.
  - vm_compute. reflexivity.
  - discriminate.
  - vm_compute. reflexivity.
  - vm_compute. discriminate. Qed.

(** *** add_op *)
Lemma none_of_fresh (l_n : op_t) (g : graph_t) :
  forallb (λ op, negb (id_ op =? id_ l_n)) (ops_ g) = true ↔ fresh_id l_n g.
Proof.
  unfold fresh_id. rewrite forallb_forall. setoid_rewrite <-list_elem_of_In.
  split; intros H op Hin; specialize (H op Hin).
  - apply negb_true_iff, N.eqb_neq in H. done.
  - by apply negb_true_iff, N.eqb_neq.
Qed.

Lemma add_op_cases reg l_n g :
  add_op reg l_n g =
    if forallb (λ op, negb (id_ op =? id_ l_n)) (ops_ g) then
      if passes_schema reg l_n then (success, emplace_back (prepared reg l_n) g)
      else (invalid_op, g)
    else (success, g).
Proof.
  unfold add_op, passes_schema, prepared.
  destruct (forallb _ _); [|done].
  destruct (reg (kind_ l_n)) as [opm|]; [|done].
  by destruct (verify opm _).
Qed.

(** C1 (amended): [add_op] inserts the operator, with the defaults of its
    schema set, exactly when no operator of the graph has its id and it has no
    schema or its schema verifies it; it returns [invalid_op] exactly when the
    id is new and the verification fails, and [success] otherwise, also when
    an operator with the same id is present, which leaves the graph as it was;
    it never returns [duplicate_id]. *)
Theorem add_op_spec (reg : op_schema_registry) (l_n : op_t) (g : graph_t) :
  (fresh_id l_n g → passes_schema reg l_n = true →
     add_op reg l_n g = (success, emplace_back (prepared reg l_n) g))
  ∧ (fresh_id l_n g → passes_schema reg l_n = false →
       add_op reg l_n g = (invalid_op, g))
  ∧ (¬ fresh_id l_n g → add_op reg l_n g = (success, g))
  ∧ (ops_ (add_op reg l_n g).2 ≠ ops_ g
     ↔ fresh_id l_n g ∧ passes_schema reg l_n = true)
  ∧ ((add_op reg l_n g).1 = invalid_op
     ↔ fresh_id l_n g ∧ passes_schema reg l_n = false)
  ∧ (add_op reg l_n g).1 ≠ duplicate_id.
Proof.
  rewrite add_op_cases. pose proof (none_of_fresh l_n g) as Hf.
  destruct (forallb _ _); destruct (passes_schema reg l_n); simpl;
    repeat split; try done; try tauto; try (intros; exfalso; intuition congruence).
  all: try (intros _; intros E; apply (f_equal length) in E;
            rewrite length_app in E; simpl in E; lia).
  all: try (intros [H _]; apply Hf in H; done).
Qed.

Lemma add_op_spec_witness :
  add_op dnnl_schemas (bare_conv_op 5) conv_bn_graph = (invalid_op, conv_bn_graph).
Proof.
  apply (proj1 (proj2 (add_op_spec dnnl_schemas (bare_conv_op 5) conv_bn_graph))).
  - apply none_of_fresh. vm_compute. reflexivity.
  - vm_compute. reflexivity.
Defined.

Lemma add_op_duplicate_counterexample :
  id_ <$> ops_ conv_bn_graph = [0; 1]
  ∧ id_ (conv_op 0 [0; 1] 2) = 0
  ∧ add_op dnnl_schemas (conv_op 0 [0; 1] 2) conv_bn_graph = (success, conv_bn_graph)
  ∧ (add_op dnnl_schemas (conv_op 0 [0; 1] 2) conv_bn_graph).1 ≠ duplicate_id
  ∧ fresh_id (bare_conv_op 5) conv_bn_graph
  ∧ ops_ (add_op dnnl_schemas (bare_conv_op 5) conv_bn_graph).2 = ops_ conv_bn_graph.
Proof.
  split_and!.
  - vm_compute. reflexivity.
  - reflexivity.
  - vm_compute. reflexivity.
  - vm_compute. discriminate.
  - apply none_of_fresh. vm_compute. reflexivity.
  - vm_compute. reflexivity.
Qed.

(** C2: whenever [add_op] returns a status other than [success] (that is,
    [invalid_op]), the graph is left unchanged: the stored operators are the
    same, in the same order. *)
Theorem add_op_failure_leaves_graph (reg : op_schema_registry) (l_n : op_t) (g : graph_t) :
  (add_op reg l_n g).1 ≠ success →
  (add_op reg l_n g).2 = g ∧ ops_ (add_op reg l_n g).2 = ops_ g.
Proof.
  rewrite add_op_cases.
  destruct (forallb _ _); destruct (passes_schema reg l_n); simpl; done.
Qed.

Lemma add_op_failure_leaves_graph_witness :
  (add_op dnnl_schemas (bare_conv_op 5) conv_bn_graph).1 = invalid_op
  ∧ ops_ (add_op dnnl_schemas (bare_conv_op 5) conv_bn_graph).2 = ops_ conv_bn_graph.
Proof.
  split; [vm_compute; reflexivity|].
  apply (add_op_failure_leaves_graph dnnl_schemas (bare_conv_op 5) conv_bn_graph).
  vm_compute. discriminate.
Defined.

(** ** Pass list round trip *)
Lemma entry_of_json_of_entry e : entry_of_json (json_of_entry e) = Some e.
Proof. by destruct e. Qed.

Lemma mapM_entry_of_json c :
  mapM (M := option) entry_of_json (json_of_entry <$> c) = Some c.
Proof.
  apply mapM_Some, Forall2_fmap_l, Forall_Forall2_diag, Forall_forall.
  intros e _. apply entry_of_json_of_entry.
Qed.

Lemma config_of_json_of_config c : config_of_json (json_of_config c) = Some c.
Proof. apply mapM_entry_of_json. Qed.

Lemma insert_by_priority_perm ps l : insert_by_priority ps l ≡ₚ ps :: l.
Proof.
  induction l as [|q l IH]; simpl; [done|].
  destruct (Qle_bool _ _); [done|]. rewrite IH. apply Permutation_swap.
Qed.

Lemma sort_by_priority_perm reg : sort_by_priority reg ≡ₚ reg.
Proof.
  induction reg as [|ps reg IH]; simpl; [done|].
  by rewrite insert_by_priority_perm, IH.
Qed.

Lemma find_pass_unique reg q :
  NoDup (pass_name <$> reg) → q ∈ reg → find_pass reg (pass_name q) = Some q.
Proof.
  unfold find_pass. induction reg as [|r reg IH]; intros Hnd Hin.
  - by apply elem_of_nil in Hin.
  - rewrite fmap_cons in Hnd. apply NoDup_cons in Hnd as [Hr Hnd].
    simpl. case_decide as Hname.
    + apply elem_of_cons in Hin as [->|Hin]; [done|].
      exfalso. apply Hr. rewrite Hname. apply list_elem_of_fmap. by exists q.
    + apply elem_of_cons in Hin as [->|Hin]; [done|].
      specialize (IH Hnd Hin).
      destruct (list_find _ reg) as [[i x]|]; simpl in *; congruence.
Qed.

Lemma load_printed reg path files :
  path ≠ "no_config" →
  load_config path (print_passes reg path files)
  = Some (Some (entry_of_pass <$> sort_by_priority reg)).
Proof.
  intros Hp. unfold load_config, print_passes.
  rewrite decide_False by done. rewrite lookup_insert_eq. simpl.
  by rewrite config_of_json_of_config.
Qed.

Lemma effective_printed reg l :
  NoDup (pass_name <$> reg) → (∀ q, q ∈ l → q ∈ reg) →
  effective_passes reg (Some (entry_of_pass <$> l)) = l.
Proof.
  intros Hnd. unfold effective_passes.
  induction l as [|q l IH]; intros Hin; [done|].
  rewrite fmap_cons. simpl. rewrite find_pass_unique; [|done|apply Hin; left].
  f_equal. apply IH. intros q' Hq'. apply Hin. by right.
Qed.

Lemma priority_ge_total ps q : ¬ priority_ge ps q → priority_ge q ps.
Proof. unfold priority_ge. intros H. by apply Qlt_le_weak, Qnot_le_lt. Qed.

Lemma insert_by_priority_HdRel q ps l :
  priority_ge q ps → HdRel priority_ge q l → HdRel priority_ge q (insert_by_priority ps l).
Proof.
  intros Hq Hl. destruct l as [|r l]; simpl; [by constructor|].
  destruct (Qle_bool _ _); constructor; [done|]. by inversion Hl.
Qed.

Lemma insert_by_priority_sorted ps l :
  Sorted priority_ge l → Sorted priority_ge (insert_by_priority ps l).
Proof.
  induction 1 as [|q l Hl IH Hq]; simpl; [by repeat constructor|].
  destruct (Qle_bool (pass_priority q) (pass_priority ps)) eqn:E.
  - constructor; [by constructor|]. constructor. by apply Qle_bool_iff.
  - constructor; [done|]. apply insert_by_priority_HdRel; [|done].
    apply priority_ge_total. unfold priority_ge. rewrite <-Qle_bool_iff. congruence.
Qed.

Lemma sort_by_priority_sorted reg : Sorted priority_ge (sort_by_priority reg).
Proof.
  induction reg as [|ps reg IH]; simpl; [constructor|].
  by apply insert_by_priority_sorted.
Qed.

(** C9: exporting the pass list with [print_passes] and reading the written
    file back as the configuration of [run_passes] yields the default
    priority-descending ordering.  The file written holds the passes in this
    order, each enabled; [run_passes] reads it, for a path other than
    [no_config], and gets these entries; with unique pass names the effective
    pass list under them is the effective list under no configuration, which
    is the registry sorted by descending priority; so for every graph the
    passes run, and produce the same partitions, with the exported
    configuration as with no configuration.  A configuration is taken in its
    own order, whatever that is, and an entry without [enable] counts as
    enabled. *)
Theorem print_passes_round_trip (reg : list pass) (g : graph_t) (path : string)
    (files : gmap string json) :
  NoDup (pass_name <$> reg) →
  print_passes reg path files !! path
  = Some (json_of_config (entry_of_pass <$> sort_by_priority reg))
  ∧ config_of_json (json_of_config (entry_of_pass <$> sort_by_priority reg))
    = Some (entry_of_pass <$> sort_by_priority reg)
  ∧ (path ≠ "no_config" →
     load_config path (print_passes reg path files)
     = Some (Some (entry_of_pass <$> sort_by_priority reg)))
  ∧ effective_passes reg (Some (entry_of_pass <$> sort_by_priority reg))
    = effective_passes reg None
  ∧ effective_passes reg None ≡ₚ reg
  ∧ Sorted priority_ge (effective_passes reg None)
  ∧ is_Some (run_passes reg g path (print_passes reg path files))
  ∧ run_passes reg g path (print_passes reg path files)
    = run_passes reg g "no_config" files
  ∧ get_partitions g <$> run_passes reg g path (print_passes reg path files)
    = get_partitions g <$> run_passes reg g "no_config" files
  ∧ (∀ l, (∀ q, q ∈ l → q ∈ reg) →
       effective_passes reg (Some (entry_of_pass <$> l)) = l)
  ∧ (∀ name type priority,
       entry_of_json (JObject [("pass_name", JString name);
                               ("pass_type", JString type);
                               ("priority", JNumber priority)])
       = Some {| cfg_pass_name := name; cfg_pass_type := type;
                 cfg_enable := true; cfg_priority := priority |}).
Proof.
  intros Hnd.
  assert (effective_passes reg (Some (entry_of_pass <$> sort_by_priority reg))
          = effective_passes reg None) as E.
  { change (effective_passes reg None) with (sort_by_priority reg).
    apply effective_printed; [done|].
    intros q. by rewrite sort_by_priority_perm. }
  assert (run_passes reg g path (print_passes reg path files)
          = run_passes reg g "no_config" files) as R.
  { destruct (decide (path = "no_config")) as [->|Hp]; [reflexivity|].
    unfold run_passes. rewrite load_printed by done.
    change (load_config "no_config" files) with (Some (@None (list pass_config_entry))).
    cbn [mbind option_bind]. by rewrite E. }
  split_and!.
  - unfold print_passes. apply lookup_insert_eq.
  - apply config_of_json_of_config.
  - apply load_printed.
  - done.
  - apply sort_by_priority_perm.
  - apply sort_by_priority_sorted.
  - rewrite R. by eexists.
  - done.
  - by rewrite R.
  - intros l Hl. by apply effective_printed.
  - done.
Qed.

Lemma print_passes_round_trip_witness :
  load_config "passes.json" (print_passes dnnl_passes "passes.json" ∅)
  = Some (Some (entry_of_pass <$> sort_by_priority dnnl_passes))
  ∧ fused_kinds <$> run_passes dnnl_passes save_load_graph "passes.json"
                      (print_passes dnnl_passes "passes.json" ∅)
    = fused_kinds <$> run_passes dnnl_passes save_load_graph "no_config" ∅.
Proof.
  assert (NoDup (pass_name <$> dnnl_passes)) as Hnd.
  { apply (bool_decide_unpack (NoDup (pass_name <$> dnnl_passes))).
    vm_compute. exact I. }
  destruct (print_passes_round_trip dnnl_passes save_load_graph "passes.json" ∅ Hnd)
    as (_ & _ & L & _ & _ & _ & _ & R & _).
  split; [by apply L|]. exact (f_equal (fmap fused_kinds) R).
Defined.

(** ** Value flow *)

Lemma elem_of_all_slots g c s :
  (c, s) ∈ all_slots g ↔ (c < length (ops_ g))%nat ∧ (s < num_inputs_at g c)%nat.
Proof.
  unfold all_slots. rewrite list_elem_of_bind. split.
  - intros (c' & Hs & Hc). apply list_elem_of_fmap in Hs as (s' & [= -> ->] & Hs).
    apply elem_of_seq in Hc, Hs. lia.
  - intros [Hc Hs]. exists c. split.
    + apply list_elem_of_fmap. exists s. split; [done|]. apply elem_of_seq. lia.
    + apply elem_of_seq. lia.
Qed.



Lemma input_at_lt g c s t :
  input_at g c s = Some t → (c < length (ops_ g))%nat ∧ (s < num_inputs_at g c)%nat.
Proof.
  unfold input_at, num_inputs_at. intros H.
  destruct (ops_ g !! c) as [oc|] eqn:Ec; simpl in *; [|done].
  split; [by eapply lookup_lt_Some|].
  apply lookup_lt_Some in H. unfold input_ids in H. by rewrite length_fmap in H.
Qed.

Lemma elem_of_consumer_slots g j c s :
  (c, s) ∈ consumer_slots g j ↔
  ∃ t oj, input_at g c s = Some t ∧ ops_ g !! j = Some oj ∧ t ∈ output_ids oj.
Proof.
  unfold consumer_slots. rewrite list_elem_of_filter, elem_of_all_slots.
  unfold consumes. simpl. split.
  - intros [H _]. destruct (input_at g c s) as [t|]; [|done].
    destruct (ops_ g !! j) as [oj|]; [|done].
    apply bool_decide_unpack in H. eauto.
  - intros (t & oj & Ht & Hj & Hin). split.
    + rewrite Ht, Hj. by apply bool_decide_pack.
    + by eapply input_at_lt.
Qed.

Lemma producer_Some g t j :
  producer g t = Some j → ∃ oj, ops_ g !! j = Some oj ∧ t ∈ output_ids oj.
Proof.
  unfold producer. intros H.
  destruct (list_find _ _) as [[j' oj]|] eqn:E; simplify_eq/=.
  apply list_find_Some in E as (? & ? & _). eauto.
Qed.

(** A slot that reads what [producer] names is a consumer slot of it. *)
Lemma producer_consumer g c op s t j :
  ops_ g !! c = Some op → input_ids op !! s = Some t → producer g t = Some j →
  (c, s) ∈ consumer_slots g j.
Proof.
  intros Hc Hs (oj & Hj & Hin)%producer_Some.
  apply elem_of_consumer_slots. exists t, oj. split; [|done].
  unfold input_at. by rewrite Hc.
Qed.

(** ** picks *)

Lemma elem_of_picks {A} (l : list A) x rest :
  (x, rest) ∈ picks l ↔ ∃ l1 l2, l = l1 ++ x :: l2 ∧ rest = l1 ++ l2.
Proof.
  revert rest. induction l as [|y l IH]; intros rest; simpl.
  - rewrite elem_of_nil. split; [done|]. by intros ([|??] & ? & ? & _).
  - rewrite elem_of_cons, list_elem_of_fmap. split.
    + intros [[= -> ->]|([x' rest'] & [= -> ->] & H)].
      * by exists [], l.
      * apply IH in H as (l1 & l2 & -> & ->). by exists (y :: l1), l2.
    + intros ([|y' l1] & l2 & E & ->); simplify_eq/=.
      * by left.
      * right. exists (x, l1 ++ l2). split; [done|]. apply IH. eauto.
Qed.

Lemma picks_perm {A} (l : list A) x rest : (x, rest) ∈ picks l → l ≡ₚ x :: rest.
Proof.
  intros (l1 & l2 & -> & ->)%elem_of_picks. by rewrite Permutation_middle.
Qed.

(** ** Matcher invariants *)

Lemma edge_sat_mono g p b b' op e s :
  b ⊆ b' → edge_sat g p b op e s → edge_sat g p b' op e s.
Proof.
  intros Hsub (Ha & t & pm & Ht & Hpm & H). split; [done|].
  exists t, pm. split_and!; [done..|].
  intros Hany. destruct (H Hany) as (j & Hj & Hb). exists j. split; [done|].
  by eapply lookup_weaken.
Qed.

Lemma node_sat_mono g claimed p b b' n :
  b ⊆ b' → node_sat g claimed p b n → node_sat g claimed p b' n.
Proof.
  intros Hsub (o & pn & op & σ & Hb & Hpn & Hop & Hacc & Hnd & Hes).
  exists o, pn, op, σ. split_and!; try done.
  - by eapply lookup_weaken.
  - eapply Forall2_impl; [done|]. intros e s. by apply edge_sat_mono.
Qed.

Lemma match_post_trans g claimed p (ok : nat → Prop) b1 b2 b3 :
  match_post g claimed p ok b1 b2 → match_post g claimed p ok b2 b3 →
  match_post g claimed p ok b1 b3.
Proof.
  intros (Hs1 & Hi1 & Hn1) (Hs2 & Hi2 & Hn2). split_and!.
  - by etrans.
  - auto.
  - intros m Hm Hsome. destruct (b2 !! m) as [o2|] eqn:E2.
    + destruct (Hn1 m Hm) as [Hsat Hok]; [by rewrite E2|]. split.
      * by eapply node_sat_mono.
      * intros o' Ho'. apply Hok.
        rewrite (lookup_weaken _ _ _ _ E2 Hs2) in Ho'. by simplify_eq.
    + by apply Hn2.
Qed.

Lemma match_post_refl g claimed p ok b : match_post g claimed p ok b b.
Proof.
  split_and!; [done..|]. intros m Hm [? ?]. congruence.
Qed.

Lemma match_post_weaken g claimed p (ok ok' : nat → Prop) b b' :
  (∀ o, ok o → ok' o) → match_post g claimed p ok b b' →
  match_post g claimed p ok' b b'.
Proof.
  intros Hok (? & ? & Hn). split_and!; [done..|].
  intros m Hm Hs. destruct (Hn m Hm Hs). split; auto.
Qed.

Lemma elem_of_match_pred g p rec e t b b' :
  b' ∈ match_pred g p rec e t b →
  ∃ pm, pat_nodes p !! pe_pred e = Some pm ∧
    ((is_any (pn_kind pm) = true ∧ b' = b)
     ∨ (is_any (pn_kind pm) = false ∧
        ∃ j, producer g t = Some j ∧ b' ∈ rec (pe_pred e) j b)).
Proof.
  unfold match_pred. destruct (pat_nodes p !! pe_pred e) as [pm|]; [|by intros ?%elem_of_nil].
  intros H. exists pm. split; [done|].
  destruct (is_any (pn_kind pm)).
  - left. by apply list_elem_of_singleton in H.
  - right. split; [done|]. destruct (producer g t) as [j|]; [eauto|].
    by apply elem_of_nil in H.
Qed.

Lemma elem_of_match_edges_cons g p rec op e es slots b b2 :
  b2 ∈ match_edges g p rec op (e :: es) slots b ↔
  ∃ st rest b', (st, rest) ∈ picks slots ∧ slot_allowed op e st.1 = true ∧
    b' ∈ match_pred g p rec e st.2 b ∧ b2 ∈ match_edges g p rec op es rest b'.
Proof.
  simpl. rewrite list_elem_of_bind. split.
  - intros ([st rest] & H & [Ha Hin]%list_elem_of_filter).
    apply list_elem_of_bind in H as (b' & H2 & H1).
    exists st, rest, b'. split_and!; try done. by apply Is_true_true.
  - intros (st & rest & b' & Hin & Ha & H1 & H2). exists (st, rest). split.
    + apply list_elem_of_bind. eauto.
    + apply list_elem_of_filter. split; [|done]. simpl. by apply Is_true_true.
Qed.

Section invariants.
Variable g : graph_t.
Variable claimed : gset nat.
Variable p : pattern.

Lemma match_edges_post rec o op :
  ops_ g !! o = Some op →
  (∀ n j b b', b' ∈ rec n j b →
     match_post g claimed p (upstream g j) b b' ∧ b' !! n = Some j) →
  ∀ es slots b1 b2,
    b2 ∈ match_edges g p rec op es slots b1 →
    (∀ x, x ∈ slots → input_ids op !! x.1 = Some x.2) →
    NoDup slots.*1 →
    match_post g claimed p (λ o', ∃ j, reads_from g o j ∧ upstream g j o') b1 b2
    ∧ ∃ σ, NoDup σ ∧ (∀ s, s ∈ σ → s ∈ slots.*1)
           ∧ Forall2 (edge_sat g p b2 op) es σ.
Proof.
  intros Hop Hrec es. induction es as [|e es IH]; intros slots b1 b2 Hin Hslots Hnd.
  - apply list_elem_of_singleton in Hin as ->. split; [apply match_post_refl|].
    exists []. split_and!; [constructor|by intros ? ?%elem_of_nil|constructor].
  - apply elem_of_match_edges_cons in Hin
      as ([s t] & rest & b' & Hpick & Ha & Hpred & Hrest).
    pose proof (picks_perm _ _ _ Hpick) as Hperm. simpl in *.
    assert (NoDup (s :: rest.*1)) as [Hs Hnd']%NoDup_cons.
    { change (NoDup ((s, t) :: rest).*1). by rewrite <-Hperm. }
    assert (input_ids op !! s = Some t) as Hst.
    { apply (Hslots (s, t)). rewrite Hperm. left. }
    destruct (IH rest b' b2 Hrest) as (Hpost2 & σ & Hσ & Hσin & Hσsat); [|done|].
    { intros x Hx. apply Hslots. rewrite Hperm. by right. }
    assert (NoDup (s :: σ)) as Hnd2.
    { apply NoDup_cons. split; [|done]. intros Hin. by apply Hs, Hσin. }
    assert (∀ s', s' ∈ s :: σ → s' ∈ slots.*1) as Hin2.
    { intros s' [->|Hs']%elem_of_cons; rewrite Hperm, fmap_cons; [left|right; auto]. }
    apply elem_of_match_pred in Hpred
      as (pm & Hpm & [[Hany ->]|(Hany & j & Hj & Hb')]).
    + split; [done|]. exists (s :: σ). split_and!; [done..|].
      constructor; [|done]. split; [done|].
      exists t, pm. split_and!; [done..|congruence].
    + destruct (Hrec _ _ _ _ Hb') as [Hpost1 Hbj].
      assert (reads_from g o j) as Hread.
      { exists s. by eapply producer_consumer. }
      split.
      * eapply match_post_trans; [|done].
        eapply match_post_weaken; [|done]. simpl. eauto.
      * exists (s :: σ). split_and!; [done..|].
        constructor; [|done]. split; [done|].
        exists t, pm. split_and!; [done..|].
        intros _. exists j. split; [done|].
        destruct Hpost2 as [Hsub _]. by eapply lookup_weaken.
Qed.

Lemma imap_pair_fst {A} (l : list A) : (imap pair l).*1 = seq 0 (length l).
Proof.
  rewrite fmap_imap. apply list_eq. intros i. rewrite list_lookup_imap.
  destruct (l !! i) eqn:E; simpl; symmetry.
  - apply lookup_seq. split; [done|]. by eapply lookup_lt_Some.
  - apply lookup_seq_ge. apply lookup_ge_None in E. lia.
Qed.

Lemma match_node_post fuel :
  ∀ n o b b', b' ∈ match_node g claimed p fuel n o b →
    match_post g claimed p (upstream g o) b b' ∧ b' !! n = Some o.
Proof.
  induction fuel as [|fuel IH]; intros n o b b' Hin; simpl in Hin.
  { by apply elem_of_nil in Hin. }
  destruct (b !! n) as [o'|] eqn:Hbn.
  { case_decide; [|by apply elem_of_nil in Hin]. subst.
    apply list_elem_of_singleton in Hin as ->. split; [apply match_post_refl|done]. }
  case_decide as Himg; [by apply elem_of_nil in Hin|].
  destruct (pat_nodes p !! n) as [pn|] eqn:Hpn; [|by apply elem_of_nil in Hin].
  destruct (ops_ g !! o) as [op|] eqn:Hop; [|by apply elem_of_nil in Hin].
  destruct (node_accepts g claimed pn o op) eqn:Hacc; [|by apply elem_of_nil in Hin].
  destruct (match_edges_post _ o op Hop IH _ _ _ _ Hin)
    as ((Hsub & Hinj & Hnew) & σ & Hσ & _ & Hsat).
  { intros [s t] (i & y & [= -> ->] & Hl)%elem_of_lookup_imap. done. }
  { rewrite imap_pair_fst. apply NoDup_seq. }
  assert (b' !! n = Some o) as Hb'n.
  { eapply lookup_weaken; [|done]. apply lookup_insert_eq. }
  split; [|done]. split_and!.
  - etrans; [|done]. by apply insert_subseteq.
  - intros Hb. apply Hinj. intros n1 n2 o0 H1 H2.
    rewrite lookup_insert in H1, H2.
    repeat case_decide; simplify_eq; try done.
    + exfalso. apply Himg, elem_of_map_img. eauto.
    + exfalso. apply Himg, elem_of_map_img. eauto.
    + eauto.
  - intros m Hm Hsome. destruct (decide (m = n)) as [->|Hne].
    + split.
      * exists o, pn, op, σ. split_and!; done.
      * intros o' Ho'. simplify_eq. apply rtc_refl.
    + destruct (Hnew m) as [Hs Hr]; [by rewrite lookup_insert_ne|done|].
      split; [done|]. intros o' Ho'.
      destruct (Hr o' Ho') as (j & Hread & Hup). by eapply rtc_l.
Qed.
End invariants.

(** *** The fuel of the matcher is enough *)

Lemma match_node_S g claimed p fuel n o b :
  match_node g claimed p (S fuel) n o b =
    match b !! n with
    | Some o' => if decide (o' = o) then [b] else []
    | None =>
        if decide (o ∈ (map_img b : gset nat)) then []
        else
          match pat_nodes p !! n, ops_ g !! o with
          | Some pn, Some op =>
              if node_accepts g claimed pn o op then
                match_edges g p (match_node g claimed p fuel) op
                  (pn_edges pn) (imap pair (input_ids op)) (<[n := o]> b)
              else []
          | _, _ => []
          end
    end.
Proof. done. Qed.


Lemma bind_ext_in {A B} (f h : A → list B) (l : list A) :
  (∀ x, x ∈ l → f x = h x) → l ≫= f = l ≫= h.
Proof.
  induction l as [|x l IH]; intros H; [done|]. simpl.
  rewrite (H x) by left. f_equal. apply IH. intros y Hy. apply H. by right.
Qed.

Lemma filter_length_le {A} (P Q : A → Prop) `{!∀ x, Decision (P x), !∀ x, Decision (Q x)}
    (l : list A) :
  (∀ x, Q x → P x) → (length (filter Q l) ≤ length (filter P l))%nat.
Proof.
  intros HQP. induction l as [|x l IH]; [done|]. rewrite !filter_cons.
  destruct (decide (Q x)) as [HQ|HQ].
  - rewrite decide_True by auto. simpl. lia.
  - destruct (decide (P x)); simpl; lia.
Qed.

Lemma filter_length_lt {A} (P Q : A → Prop) `{!∀ x, Decision (P x), !∀ x, Decision (Q x)}
    (l : list A) x :
  (∀ x, Q x → P x) → x ∈ l → P x → ¬ Q x →
  (length (filter Q l) < length (filter P l))%nat.
Proof.
  intros HQP Hin HP HQ. induction l as [|y l IH]; [by apply elem_of_nil in Hin|].
  rewrite !filter_cons. apply elem_of_cons in Hin as [<-|Hin].
  - rewrite decide_False, decide_True by done. simpl.
    pose proof (filter_length_le P Q l HQP). lia.
  - specialize (IH Hin). destruct (decide (Q y)) as [HQy|HQy].
    + rewrite decide_True by auto. simpl. lia.
    + destruct (decide (P y)); simpl; lia.
Qed.

Lemma unbound_mono p (b b' : binding) : b ⊆ b' → (unbound p b' ≤ unbound p b)%nat.
Proof.
  intros Hsub. apply filter_length_le. intros n Hn.
  destruct (b !! n) as [o|] eqn:E; [|done].
  by rewrite (lookup_weaken _ _ _ _ E Hsub) in Hn.
Qed.

Lemma unbound_insert p (b : binding) n o :
  b !! n = None → is_Some (pat_nodes p !! n) →
  (unbound p (<[n := o]> b) < unbound p b)%nat.
Proof.
  intros Hb [pn Hn%lookup_lt_Some]. apply (filter_length_lt _ _ _ n).
  - intros m. rewrite lookup_insert. by case_decide.
  - apply elem_of_seq. lia.
  - done.
  - by rewrite lookup_insert_eq.
Qed.

Section fuel.
Variable g : graph_t.
Variable claimed : gset nat.
Variable p : pattern.

Lemma match_edges_agree (rec1 rec2 : nat → nat → binding → list binding) op b0 :
  (∀ n j b, b0 ⊆ b → rec1 n j b = rec2 n j b) →
  (∀ n j b b', b' ∈ rec1 n j b → b ⊆ b') →
  ∀ es slots b, b0 ⊆ b →
    match_edges g p rec1 op es slots b = match_edges g p rec2 op es slots b.
Proof.
  intros Hrec Hext es. induction es as [|e es IH]; intros slots b Hb; [done|].
  simpl. apply bind_ext_in. intros [st rest] _.
  assert (match_pred g p rec1 e st.2 b = match_pred g p rec2 e st.2 b) as Hpred.
  { unfold match_pred. destruct (pat_nodes p !! pe_pred e) as [pm|]; [|done].
    destruct (is_any (pn_kind pm)); [done|].
    destruct (producer g st.2); [by apply Hrec|done]. }
  rewrite <-Hpred. apply bind_ext_in. intros b' Hb'. apply IH.
  etrans; [done|]. unfold match_pred in Hb'.
  destruct (pat_nodes p !! pe_pred e) as [pm|]; [|by apply elem_of_nil in Hb'].
  destruct (is_any (pn_kind pm)).
  { by apply list_elem_of_singleton in Hb' as ->. }
  destruct (producer g st.2); [by eapply Hext|by apply elem_of_nil in Hb'].
Qed.

(** More fuel than pattern nodes left to bind changes nothing. *)
Lemma match_node_fuel f1 : ∀ f2 n o b,
  (unbound p b < f1)%nat → (unbound p b < f2)%nat →
  match_node g claimed p f1 n o b = match_node g claimed p f2 n o b.
Proof.
  induction f1 as [|f1 IH]; intros f2 n o b H1 H2; [lia|].
  destruct f2 as [|f2]; [lia|]. rewrite !match_node_S.
  destruct (b !! n) eqn:Hbn; [done|]. case_decide; [done|].
  destruct (pat_nodes p !! n) as [pn|] eqn:Hpn; [|done].
  destruct (ops_ g !! o) as [op|]; [|done].
  destruct (node_accepts g claimed pn o op); [|done].
  pose proof (unbound_insert p b n o Hbn (mk_is_Some _ _ Hpn)) as Hlt.
  apply match_edges_agree with (b0 := <[n := o]> b); [| |done].
  - intros n' j b' Hb'. pose proof (unbound_mono p _ _ Hb'). apply IH; lia.
  - intros n' j b' b'' Hin.
    by destruct (match_node_post g claimed p _ _ _ _ _ Hin) as [[? _] _].
Qed.

(** The fuel of [match_pattern] is enough: more fuel finds the same matches. *)
Lemma match_pattern_fuel fuel r :
  (length (pat_nodes p) < fuel)%nat →
  match_node g claimed p fuel (pat_root p) r ∅
  = match_node g claimed p (S (length (pat_nodes p))) (pat_root p) r ∅.
Proof.
  intros Hfuel.
  assert (unbound p ∅ ≤ length (pat_nodes p))%nat as Hle.
  { unfold unbound. etrans; [apply length_filter|]. by rewrite length_seq. }
  apply match_node_fuel; lia.
Qed.
End fuel.

Lemma node_accepts_not_any g claimed pn o op :
  node_accepts g claimed pn o op = true → is_any (pn_kind pn) = false.
Proof.
  unfold node_accepts. intros H.
  rewrite !andb_true_iff in H. destruct H as [[[[Hk _] _] _] _].
  by destruct (pn_kind pn).
Qed.

Lemma match_pattern_Some g claimed p r b :
  match_pattern g claimed p r = Some b →
  b ∈ match_node g claimed p (S (length (pat_nodes p))) (pat_root p) r ∅
  ∧ complete p b = true ∧ interior_safe g b = true.
Proof.
  unfold match_pattern. intros H. apply head_Some_elem_of in H.
  apply list_elem_of_filter in H as [Hc Hin].
  apply Is_true_true, andb_true_iff in Hc as [? ?]. done.
Qed.

Lemma reads_from_elem g c j : c ∈ (consumer_slots g j).*1 ↔ reads_from g c j.
Proof.
  unfold reads_from. rewrite list_elem_of_fmap. split.
  - intros ([c' s] & -> & H). by exists s.
  - intros [s H]. by exists (c, s).
Qed.

(** The check of the matcher is fan-out safety of the partition it makes. *)
Lemma interior_safe_spec g p b :
  interior_safe g b = true ↔ fan_out_safe g (rewrite g p b).
Proof.
  unfold interior_safe, fan_out_safe. simpl. rewrite forallb_forall.
  setoid_rewrite <-list_elem_of_In. split.
  - intros H j Hj [(c1 & Hc1 & Hr1) (c2 & Hc2 & Hr2)].
    specialize (H j Hj). apply negb_true_iff, andb_false_iff in H as [H|H].
    + apply not_true_iff_false in H. apply H, existsb_exists. exists c1.
      split; [by apply list_elem_of_In, reads_from_elem|by apply bool_decide_eq_true].
    + apply not_true_iff_false in H. apply H, existsb_exists. exists c2.
      split; [by apply list_elem_of_In, reads_from_elem|by apply bool_decide_eq_true].
  - intros H j Hj. apply negb_true_iff, not_true_iff_false.
    intros [H1 H2]%andb_true_iff. apply (H j Hj).
    apply existsb_exists in H1 as (c1 & Hin1%list_elem_of_In & Hc1%bool_decide_eq_true).
    apply existsb_exists in H2 as (c2 & Hin2%list_elem_of_In & Hc2%bool_decide_eq_true).
    split; [exists c1|exists c2]; by rewrite <-reads_from_elem.
Qed.

Lemma elem_of_matched_ops g b o :
  o ∈ matched_ops g b ↔ o ∈ (map_img b : gset nat) ∧ (o < length (ops_ g))%nat.
Proof.
  unfold matched_ops. rewrite list_elem_of_filter, elem_of_seq.
  split; intros [? ?]; (split; [done|lia]).
Qed.

(** What a successful match binds. *)
Lemma match_pattern_sound g claimed p r b :
  match_pattern g claimed p r = Some b →
  b !! pat_root p = Some r ∧ binding_inj b ∧ complete p b = true
  ∧ ∀ m o, b !! m = Some o → node_sat g claimed p b m ∧ upstream g r o.
Proof.
  intros (Hin & Hcomplete & _)%match_pattern_Some.
  destruct (match_node_post g claimed p _ _ _ _ _ Hin) as [(_ & Hinj & Hnew) Hroot].
  split_and!; [done| |done|].
  - apply Hinj. intros ??? ?. by rewrite lookup_empty.
  - intros m o Hm. destruct (Hnew m) as [Hsat Hup]; [apply lookup_empty|eauto|].
    split; [done|]. by apply Hup.
Qed.

(** A match leaves no operator that is read both inside and outside. *)
Lemma match_fan_out_safe g claimed p r b :
  match_pattern g claimed p r = Some b → fan_out_safe g (rewrite g p b).
Proof. intros (_ & _ & H)%match_pattern_Some. by apply interior_safe_spec. Qed.

Lemma try_root_partitions g p st r part :
  part ∈ st_partitions (try_root g p st r) →
  part ∈ st_partitions st
  ∨ ∃ claimed b, match_pattern g claimed p r = Some b ∧ part = rewrite g p b.
Proof.
  unfold try_root. destruct (match_pattern _ _ _ _) as [b|] eqn:E; [|by left].
  simpl. intros [?|H]%elem_of_app; [by left|].
  apply list_elem_of_singleton in H as ->. right; eauto.
Qed.

Lemma run_pattern_partitions g p st part :
  part ∈ st_partitions (run_pattern g st p) →
  part ∈ st_partitions st
  ∨ ∃ claimed r b, match_pattern g claimed p r = Some b ∧ part = rewrite g p b.
Proof.
  unfold run_pattern. generalize (reverse (topo_order g)). intros l. revert st.
  induction l as [|r l IH]; intros st; simpl; [by left|].
  intros [[?|(claimed & b & ? & ?)]%try_root_partitions|?]%IH; eauto 6.
Qed.

Lemma run_pass_partitions g ps st part :
  part ∈ st_partitions (run_pass g ps st) →
  part ∈ st_partitions st ∨ from_match g ps part.
Proof.
  unfold run_pass, from_match. generalize (pass_patterns ps). intros l. revert st.
  induction l as [|p l IH]; intros st; simpl; [by left|].
  intros [[?|(claimed & r & b & ? & ?)]%run_pattern_partitions
         |(p' & claimed & r & b & ? & ? & ?)]%IH.
  - by left.
  - right. exists p, claimed, r, b. split_and!; [left|done..].
  - right. exists p', claimed, r, b. split_and!; [by right|done..].
Qed.

Lemma run_pass_init_partitions g ps part :
  part ∈ st_partitions (run_pass g ps init_state) → from_match g ps part.
Proof. intros [[]%elem_of_nil|?]%run_pass_partitions. done. Qed.



Lemma from_match_fan_out_safe g ps part : from_match g ps part → fan_out_safe g part.
Proof. intros (p & claimed & r & b & _ & Hm & ->). by eapply match_fan_out_safe. Qed.

Lemma run_pass_list_partitions g (l : list pass) st part :
  part ∈ st_partitions (foldl (λ st ps, run_pass g ps st) st l) →
  part ∈ st_partitions st ∨ ∃ ps, from_match g ps part.
Proof.
  revert st. induction l as [|ps l IH]; intros st; simpl; [by left|].
  intros [[?|?]%run_pass_partitions|?]%IH; eauto.
Qed.

(** C3 (P5, fan-out safety): for every graph and every pass, whatever its
    patterns, no partition that the pass adds holds an operator whose output
    is read both inside and outside the partition: the matcher rejects a
    match with such an interior value.  This holds of a pass run from any
    state, of a pass run on a fresh graph, and of every partition the pass
    manager leaves, for every registry and configuration.  On the graph
    where bn and relu both read the convolution (fan-out 2), conv_bn_fusion
    produces no partition, and neither does a conv_bn pattern that asks no
    out-degree of the convolution. *)
Theorem rewrite_fan_out_safe :
  (∀ g ps st part,
     part ∈ st_partitions (run_pass g ps st) →
     part ∈ st_partitions st ∨ fan_out_safe g part)
  ∧ (∀ g ps part,
       part ∈ st_partitions (run_pass g ps init_state) → fan_out_safe g part)
  ∧ (∀ reg g path files st part,
       run_passes reg g path files = Some st →
       part ∈ st_partitions st → fan_out_safe g part)
  ∧ num_ops conv_fan_out_graph = 3%nat
  ∧ out_edge_count conv_fan_out_graph 0 = 2%nat
  ∧ get_num_partitions (run_on conv_fan_out_graph "conv_bn_fusion") = 0%nat
  ∧ get_num_partitions
      (run_pass conv_fan_out_graph
         (fusion_pass "conv_bn_fusion" 9.1%Q [conv_bn_any_fan_out_pattern])
         init_state) = 0%nat
  ∧ get_num_partitions
      (run_pass conv_bn_graph
         (fusion_pass "conv_bn_fusion" 9.1%Q [conv_bn_any_fan_out_pattern])
         init_state) = 1%nat.
Proof.
  split_and!.
  - intros g ps st part [?|H]%run_pass_partitions; [by left|right].
    by eapply from_match_fan_out_safe.
  - intros g ps part H%run_pass_init_partitions.
    by eapply from_match_fan_out_safe.
  - intros reg g path files st part Hrun Hpart. unfold run_passes in Hrun.
    destruct (load_config path files) as [config|]; [|done]. simpl in Hrun.
    injection Hrun as <-.
    apply run_pass_list_partitions in Hpart as [[]%elem_of_nil|[ps H]].
    by eapply from_match_fan_out_safe.
  - vm_compute. reflexivity.
  - vm_compute. reflexivity.
  - vm_compute. reflexivity.
  - vm_compute. reflexivity.
  - vm_compute. reflexivity.
Qed.

Lemma rewrite_fan_out_safe_witness :
  Forall (fan_out_safe conv_bn_graph)
         (st_partitions (run_pass conv_bn_graph conv_bn_fusion init_state))
  ∧ get_num_partitions (run_pass conv_bn_graph conv_bn_fusion init_state) = 1%nat.
Proof.
  split; [|vm_compute; reflexivity]. apply Forall_forall.
  apply (proj1 (proj2 rewrite_fan_out_safe) conv_bn_graph conv_bn_fusion).
Defined.

(** ** Swapping the inputs of a commutative operator *)

Lemma swap2_perm {A} (l : list A) : swap2 l ≡ₚ l.
Proof. destruct l as [|a [|b [|c l]]]; simpl; try done. apply Permutation_swap. Qed.

Lemma swap2_length {A} (l : list A) : length (swap2 l) = length l.
Proof. by rewrite swap2_perm. Qed.







Lemma swap_inputs_lookup i g o :
  ops_ (swap_inputs i g) !! o
  = if decide (o = i) then swap_op_inputs <$> ops_ g !! o else ops_ g !! o.
Proof.
  simpl. case_decide; subst.
  - apply list_lookup_alter_eq.
  - by apply list_lookup_alter_ne.
Qed.



Lemma num_inputs_at_swap i g c : num_inputs_at (swap_inputs i g) c = num_inputs_at g c.
Proof.
  unfold num_inputs_at. rewrite swap_inputs_lookup. case_decide; [|done].
  destruct (ops_ g !! c); simpl; [|done]. apply swap2_length.
Qed.





Lemma attr_holds_swap o a : attr_holds (swap_op_inputs o) a = attr_holds o a.
Proof. done. Qed.












Lemma node_accepts_kind g claimed pn o op :
  node_accepts g claimed pn o op = true → kind_matches (pn_kind pn) (kind_ op) = true.
Proof.
  unfold node_accepts. rewrite !andb_true_iff. tauto.
Qed.

Section swap.
Variable claimed : gset nat.
Variable p : pattern.
Variable i : nat.

End swap.




(** ** Scenarios of the specification *)

(** The model against the other assertions of test_pass.cpp on the passes it
    holds: the statuses of [add_op] and [build_graph], the partitions of
    conv_bn_fusion, conv_relu_fusion, conv_sum_fusion, conv_bn_relu_fusion
    (scenario S1: six inputs and one output) and their failing variants,
    two_conv_with_shared_weight (scenario S6), conv_single_node_replacement,
    multi_values_between_two_nodes and save_load_json; a graph with a cycle
    is an invalid graph. *)
Example tests_of_the_model :
  (add_ops dnnl_schemas
     [conv_op 0 [0; 1] 2; bn_op 1 [2; 3; 4; 5; 6] 7; plain_op 2 ReLU "relu" [7] 8]
     empty_graph).1 = [success; success; success]
  ∧ build_graph conv_bn_relu_graph = success
  ∧ build_graph cyclic_graph = invalid_graph
  ∧ fused_shapes (run_on conv_bn_graph "conv_bn_fusion") = [(conv_bn, 6, 1)]%nat
  ∧ fused_shapes (run_on conv_bn_relu_graph "conv_bn_relu_fusion")
    = [(conv_bn_relu, 6, 1)]%nat
  ∧ fused_kinds (run_on conv_relu_graph "conv_relu_fusion") = [conv_relu]
  ∧ fused_kinds (run_on conv_bias_relu_graph "conv_relu_fusion") = []
  ∧ fused_kinds (run_on conv_bias_two_relu_graph "conv_relu_fusion") = []
  ∧ get_num_partitions (run_on conv_sum_graph "conv_sum_fusion") = 1%nat
  ∧ get_num_partitions (run_on conv_bias_sum_graph "conv_sum_fusion") = 0%nat
  ∧ fused_shapes (run_on shared_weight_graph "conv_relu_fusion")
    = [(conv_relu, 2, 1); (conv_relu, 2, 1)]%nat
  ∧ fused_kinds (run_on conv_single_graph "conv_pass") = [Convolution]
  ∧ fused_shapes (run_pass multi_values_graph (get_pass "sum_pass")
                    (run_on multi_values_graph "conv_pass"))
    = [(Convolution, 2, 1); (Add, 2, 1)]%nat
  ∧ num_ops save_load_graph = 5%nat
  ∧ fused_kinds <$> run_passes dnnl_passes save_load_graph "passes.json"
                      (print_passes dnnl_passes "passes.json" ∅)
    = Some [conv_bn_relu; conv_add].
Proof. split_and!; vm_compute; reflexivity. Qed.




Lemma kind_matches_kind k k' : kind_matches (kf_kind k) k' = true → k' = k.
Proof. simpl. by intros ->%bool_decide_eq_true. Qed.





Lemma edge_sat_producer g p b op o e s pm :
  ops_ g !! o = Some op → edge_sat g p b op e s →
  pat_nodes p !! pe_pred e = Some pm → is_any (pn_kind pm) = false →
  ∃ j, input_at g o s ≫= producer g = Some j ∧ b !! pe_pred e = Some j.
Proof.
  intros Hop (_ & t & pm' & Ht & Hpm & H) Hpm' Hany. simplify_eq.
  destruct (H Hany) as (j & Hj & Hb). exists j. split; [|done].
  unfold input_at. rewrite Hop. simpl. by rewrite Ht.
Qed.

Lemma node_sat_op g claimed p b n o :
  node_sat g claimed p b n → b !! n = Some o →
  ∃ pn op σ, pat_nodes p !! n = Some pn ∧ ops_ g !! o = Some op
    ∧ node_accepts g claimed pn o op = true ∧ NoDup σ
    ∧ Forall2 (edge_sat g p b op) (pn_edges pn) σ.
Proof.
  intros (o' & pn & op & σ & ? & ? & ? & ? & ? & ?) Hb. simplify_eq. eauto 10.
Qed.

(** C7: on MatMul -> BiasAdd -> Sigmoid -> Multiply, where the other input of
    Multiply is the BiasAdd output, matmul_bias_swish_fusion produces one
    partition of kind matmul_bias_swish that holds the four operators; the
    convolution variant of the test fuses to conv_bias_swish.  On every graph,
    a partition of the pass holds a Multiply that reads, on two distinct
    slots, a Sigmoid and the BiasAdd that this Sigmoid reads, and the BiasAdd
    reads a MatMul. *)
Theorem matmul_bias_swish_scenario :
  num_ops matmul_bias_swish_graph = 4%nat
  ∧ input_at matmul_bias_swish_graph 3 0 ≫= producer matmul_bias_swish_graph = Some 2%nat
  ∧ input_at matmul_bias_swish_graph 2 0 ≫= producer matmul_bias_swish_graph = Some 1%nat
  ∧ input_at matmul_bias_swish_graph 3 1 ≫= producer matmul_bias_swish_graph = Some 1%nat
  ∧ fused_kinds (run_on matmul_bias_swish_graph "matmul_bias_swish_fusion")
    = [matmul_bias_swish]
  ∧ part_ops <$> st_partitions (run_on matmul_bias_swish_graph "matmul_bias_swish_fusion")
    = [[0; 1; 2; 3]%nat]
  ∧ fused_kinds (run_on conv_bias_swish_graph "conv_bias_swish_fusion")
    = [conv_bias_swish]
  ∧ (∀ g part,
       part ∈ st_partitions (run_pass g matmul_bias_swish_fusion init_state) →
       kind_ (fused_op part) = matmul_bias_swish
       ∧ ∃ mul sig bias mm s1 s2,
           mul ∈ part_ops part ∧ sig ∈ part_ops part ∧ bias ∈ part_ops part
           ∧ mm ∈ part_ops part
           ∧ kind_ <$> ops_ g !! mul = Some Multiply
           ∧ kind_ <$> ops_ g !! sig = Some Sigmoid
           ∧ kind_ <$> ops_ g !! bias = Some BiasAdd
           ∧ kind_ <$> ops_ g !! mm = Some MatMul
           ∧ s1 ≠ s2
           ∧ input_at g mul s1 ≫= producer g = Some sig
           ∧ input_at g mul s2 ≫= producer g = Some bias
           ∧ input_at g sig 0 ≫= producer g = Some bias
           ∧ input_at g bias 0 ≫= producer g = Some mm).
Proof.
  split_and!; [vm_compute; reflexivity..|].
  intros g part (p & claimed & r & b & Hp & Hm & ->)%run_pass_init_partitions.
  apply list_elem_of_singleton in Hp as ->. split; [done|].
  pose proof Hm as (Hroot & _ & _ & Hbound)%match_pattern_sound.
  assert (∀ n o, b !! n = Some o → o ∈ part_ops (rewrite g matmul_bias_swish_pattern b)
                                   ∧ is_Some (ops_ g !! o)) as Hin.
  { intros n o Hn. destruct (Hbound n o Hn) as [Hsat _].
    destruct (node_sat_op _ _ _ _ _ _ Hsat Hn) as (pn & op & _ & _ & Hop & _).
    split; [|eauto]. apply elem_of_matched_ops.
    split; [apply elem_of_map_img; eauto|by eapply lookup_lt_Some]. }
  (* the multiply *)
  destruct (Hbound _ _ Hroot) as [H0 _].
  destruct (node_sat_op _ _ _ _ _ _ H0 Hroot)
    as (pn0 & mul_op & σ0 & Hpn0 & Hmul & Hacc0 & Hnd0 & Hes0).
  simplify_eq/=.
  apply Forall2_cons_inv_l in Hes0 as (s1 & σ' & He1 & Hes0 & ->).
  apply Forall2_cons_inv_l in Hes0 as (s2 & σ'' & He2 & Hes0 & ->).
  apply Forall2_nil_inv_l in Hes0 as ->.
  destruct (edge_sat_producer _ _ _ _ _ _ _ _ Hmul He1 eq_refl eq_refl) as (sig & Hsig_in & Hsig).
  destruct (edge_sat_producer _ _ _ _ _ _ _ _ Hmul He2 eq_refl eq_refl) as (bias & Hbias_in & Hbias).
  simpl in Hsig, Hbias.
  (* the sigmoid *)
  destruct (Hbound _ _ Hsig) as [H1 _].
  destruct (node_sat_op _ _ _ _ _ _ H1 Hsig)
    as (pn1 & sig_op & σ1 & Hpn1 & Hsigop & Hacc1 & _ & Hes1).
  simplify_eq/=.
  apply Forall2_cons_inv_l in Hes1 as (s3 & σ1' & He3 & Hes1 & ->).
  pose proof (node_accepts_kind _ _ _ _ _ Hacc1) as Hk1%kind_matches_kind.
  pose proof He3 as [Hs3 _]. unfold slot_allowed in Hs3. rewrite Hk1 in Hs3.
  apply bool_decide_eq_true in Hs3. subst s3.
  destruct (edge_sat_producer _ _ _ _ _ _ _ _ Hsigop He3 eq_refl eq_refl) as (bias' & Hsb & Hbias').
  simpl in Hbias'. simplify_eq.
  (* the bias *)
  destruct (Hbound _ _ Hbias) as [H2 _].
  destruct (node_sat_op _ _ _ _ _ _ H2 Hbias)
    as (pn2 & bias_op & σ2 & Hpn2 & Hbiasop & Hacc2 & _ & Hes2).
  simplify_eq/=.
  apply Forall2_cons_inv_l in Hes2 as (s4 & σ2' & He4 & Hes2 & ->).
  pose proof (node_accepts_kind _ _ _ _ _ Hacc2) as Hk2%kind_matches_kind.
  pose proof He4 as [Hs4 _]. unfold slot_allowed in Hs4. rewrite Hk2 in Hs4.
  apply bool_decide_eq_true in Hs4. subst s4.
  destruct (edge_sat_producer _ _ _ _ _ _ _ _ Hbiasop He4 eq_refl eq_refl) as (mm & Hbm & Hmm).
  simpl in Hmm.
  destruct (Hbound _ _ Hmm) as [H3 _].
  destruct (node_sat_op _ _ _ _ _ _ H3 Hmm)
    as (pn3 & mm_op & σ3 & Hpn3 & Hmmop & Hacc3 & _ & _).
  simplify_eq/=.
  exists r, sig, bias, mm, s1, s2.
  apply node_accepts_kind, kind_matches_kind in Hacc0, Hacc1, Hacc2, Hacc3.
  rewrite Hmul, Hsigop, Hbiasop, Hmmop. simpl.
  rewrite Hacc0, Hacc1, Hacc2, Hacc3.
  apply NoDup_cons in Hnd0 as [Hs12 _].
  split_and!; try done; try (by eapply Hin).
  intros ->. apply Hs12. left.
Qed.

Lemma matmul_bias_swish_scenario_witness :
  ∃ part, st_partitions (run_pass matmul_bias_swish_graph matmul_bias_swish_fusion
                                  init_state) = [part]
          ∧ kind_ (fused_op part) = matmul_bias_swish.
Proof.
  eexists. split; [vm_compute; reflexivity|].
  pose proof matmul_bias_swish_scenario as H. do 7 destruct H as [_ H].
  apply (H matmul_bias_swish_graph). vm_compute. apply list_elem_of_here.
Defined.



(** * Further properties of the sources *)

(** ** Further properties of operators (op.hpp) *)

Lemma set_attr_with_attributes name a o :
  set_attr name a o = with_attributes (<[name := a]> (attributes_ o)) o.
Proof.
  pose proof (set_attr_insert name a o) as H. unfold set_attr in *.
  destruct (attributes_ o !! name); unfold with_attributes in *; simpl in *;
    by rewrite H.
Qed.

Lemma attribute_value_get_kind T a v :
  attribute_value_get T a = Some v → get_kind a = T.
Proof.
  intros H. destruct (decide (get_kind a = T)) as [|Hne]; [done|].
  by rewrite (attribute_value_get_mismatch T a Hne) in H.
Qed.

Lemma attribute_value_get_is_Some T a :
  get_kind a = T → is_Some (attribute_value_get T a).
Proof. intros <-. by destruct a. Qed.

(** X1: an attribute written by [set_attr<T>] is read back by [get_attr<T>]
    under the same name: the call returns [success] and yields the value
    written, and [kind_of] reports the tag [T], whatever was stored under the
    name before. *)
Theorem set_attr_get_attr_round_trip (T : attribute_kind_t) (name : string)
    (v : attr_type T) (o : op_t) :
  get_attr T name (set_attr_as T name v o) = Returns (success, Some v)
  ∧ kind_of name (set_attr_as T name v o) = (success, Some T).
Proof.
  unfold get_attr, kind_of, set_attr_as.
  rewrite set_attr_insert, lookup_insert_eq, attribute_value_get_pack.
  split; [done|]. by destruct T.
Qed.

(** X2: [kind_of] tells what [get_attr<T>] will do.  [get_attr<T>] returns
    [success] exactly when [kind_of] returns [success] with the tag [T]; it
    returns [invalid_argument] exactly when [kind_of] does; and it is left by
    the failing typed accessor exactly when [kind_of] reports another tag. *)
Theorem kind_of_guards_get_attr (T : attribute_kind_t) (name : string) (o : op_t) :
  (kind_of name o = (success, Some T)
   ↔ ∃ v, get_attr T name o = Returns (success, Some v))
  ∧ (kind_of name o = (invalid_argument, None)
     ↔ get_attr T name o = Returns (invalid_argument, None))
  ∧ ((∃ T', T' ≠ T ∧ kind_of name o = (success, Some T'))
     ↔ get_attr T name o = Throws).
Proof.
  unfold kind_of, get_attr.
  destruct (attributes_ o !! name) as [a|].
  2: { split_and!; [split; [done|by intros [? ?]] | done
                   | split; [by intros (? & ? & ?)|done]]. }
  destruct (attribute_value_get T a) as [v|] eqn:E.
  - apply attribute_value_get_kind in E as Hk. rewrite Hk. split_and!.
    + split; [by eexists|done].
    + split; done.
    + split; [intros (T' & Hne & [= ->]); done | done].
  - assert (get_kind a ≠ T) as Hne.
    { intros Hk. apply attribute_value_get_is_Some in Hk as [? Hk]. congruence. }
    split_and!.
    + split; [intros [= Hk]; done | by intros [v ?]].
    + split; done.
    + split; [done | intros _; by exists (get_kind a)].
Qed.

(** X3: of two [set_attr] calls on one name the later one wins: the operator
    is the same as after the later call alone. *)
Theorem set_attr_last_wins (name : string) (a b : attribute_value) (o : op_t) :
  set_attr name a (set_attr name b o) = set_attr name a o.
Proof.
  rewrite !set_attr_with_attributes. unfold with_attributes. simpl.
  by rewrite insert_insert_eq.
Qed.

(** X4: [set_attr] calls on different names can be made in either order. *)
Theorem set_attr_commutes (name name' : string) (a b : attribute_value) (o : op_t) :
  name ≠ name' →
  set_attr name a (set_attr name' b o) = set_attr name' b (set_attr name a o).
Proof.
  intros Hne. rewrite !set_attr_with_attributes. unfold with_attributes. simpl.
  by rewrite insert_insert_ne.
Qed.

Lemma set_attr_commutes_witness :
  set_attr "min" (attr_f 0) (set_attr "max" (attr_f 6) (mk_op 2 HardTanh "relu6"))
  = set_attr "max" (attr_f 6) (set_attr "min" (attr_f 0) (mk_op 2 HardTanh "relu6")).
Proof. apply (set_attr_commutes "min" "max"). discriminate. Defined.

Lemma add_io_snoc calls c o :
  add_io (calls ++ [c]) o
  = match c with
    | inl t => add_input t (add_io calls o)
    | inr t => add_output t (add_io calls o)
    end.
Proof. unfold add_io. by rewrite foldl_snoc. Qed.

(** X5: [add_input] and [add_output] append: after any sequence of such
    calls the inputs are the former inputs followed by the tensors given to
    [add_input], in call order and with repetitions kept, the outputs
    likewise, however the two kinds of call were interleaved; id, kind and
    attributes are as before. *)
Theorem add_io_in_call_order (calls : list (logical_tensor_t + logical_tensor_t))
    (o : op_t) :
  inputs_ (add_io calls o) = inputs_ o ++ omap (λ c, match c with inl t => Some t | inr _ => None end) calls
  ∧ outputs_ (add_io calls o) = outputs_ o ++ omap (λ c, match c with inr t => Some t | inl _ => None end) calls
  ∧ (id_ (add_io calls o), kind_ (add_io calls o), attributes_ (add_io calls o))
    = (id_ o, kind_ o, attributes_ o).
Proof.
  induction calls as [|c calls IH] using rev_ind.
  - simpl. by rewrite !app_nil_r.
  - destruct IH as (Hi & Ho & Hr). rewrite add_io_snoc, !omap_app.
    injection Hr as H1 H2 H3.
    destruct c as [t|t]; simpl; rewrite Hi, Ho, H1, H2, H3;
      rewrite ?app_nil_r, ?app_assoc; done.
Qed.

Lemma size_t_sub_add (a i : N) : i < 2 ^ 64 → size_t_sub (a + i) a = i.
Proof.
  intros Hi. unfold size_t_sub.
  replace (a + i + 2 ^ 64 - a) with (i + 1 * 2 ^ 64) by lia.
  rewrite N.Div0.mod_add. by apply N.mod_small.
Qed.

Lemma size_t_sub_wraps (k a : N) :
  k < a → a ≤ 2 ^ 64 → size_t_sub k a = k + 2 ^ 64 - a.
Proof. intros Hk Ha. unfold size_t_sub. apply N.mod_small. lia. Qed.

(** X6: [kind2str] of an internal kind, numbered [any + i], is entry [i] of
    the table of internal names. *)
Theorem kind2str_internal (LastSymbol any_kind : N)
    (op_kind_strings internal_op_strings : list string) (i : nat) (s : string) :
  LastSymbol < any_kind →
  any_kind + N.of_nat i < 2 ^ 64 →
  internal_op_strings !! i = Some s →
  kind2str LastSymbol any_kind op_kind_strings internal_op_strings
    (any_kind + N.of_nat i) = Returns s.
Proof.
  intros Hl Hi Hs. unfold kind2str.
  destruct (N.leb_spec (any_kind + N.of_nat i) LastSymbol) as [Hle|_]; [lia|].
  rewrite size_t_sub_add by lia. unfold vector_at. by rewrite Nat2N.id, Hs.
Qed.

Lemma kind2str_internal_witness :
  kind2str 3 0x1234 ["Abs"; "Add"; "Convolution"; "LastSymbol"] ["Any"; "conv_add"]
    (0x1234 + 1) = Returns "conv_add".
Proof.
  apply (kind2str_internal 3 0x1234 _ ["Any"; "conv_add"] 1 "conv_add");
    [lia | vm_compute; reflexivity | reflexivity].
Defined.

(** X7: a kind numbered strictly between [LastSymbol] and [any] is no index
    of either table: the subtraction [k - a] wraps around and [at] fails with
    [std::out_of_range], whatever the tables hold. *)
Theorem kind2str_between_throws (LastSymbol any_kind : N)
    (op_kind_strings internal_op_strings : list string) (k : N) :
  LastSymbol < k →
  k < any_kind →
  any_kind + N.of_nat (length internal_op_strings) ≤ 2 ^ 64 →
  kind2str LastSymbol any_kind op_kind_strings internal_op_strings k = Throws.
Proof.
  intros Hl Hk Ha. unfold kind2str.
  destruct (N.leb_spec k LastSymbol) as [Hle|_]; [lia|].
  rewrite size_t_sub_wraps by lia. unfold vector_at.
  rewrite (proj2 (lookup_ge_None _ _)); [done|]. lia.
Qed.

Lemma kind2str_between_throws_witness :
  kind2str 3 0x1234 ["Abs"; "Add"; "Convolution"; "LastSymbol"] ["Any"; "conv_add"] 4
  = Throws.
Proof.
  apply (kind2str_between_throws 3 0x1234); [lia | lia | vm_compute; discriminate].
Defined.

(** ** Further properties of [add_op] (graph.hpp) *)

Lemma prepared_id reg l_n : keeps_id reg → id_ (prepared reg l_n) = id_ l_n.
Proof.
  intros H. unfold prepared.
  destruct (reg (kind_ l_n)) as [opm|] eqn:E; [by eapply H|done].
Qed.

Lemma add_op_step reg l_n g :
  add_op reg l_n g = (success, g) ∧ ¬ fresh_id l_n g
  ∨ add_op reg l_n g = (invalid_op, g) ∧ fresh_id l_n g
    ∧ passes_schema reg l_n = false
  ∨ add_op reg l_n g = (success, emplace_back (prepared reg l_n) g)
    ∧ fresh_id l_n g ∧ passes_schema reg l_n = true.
Proof.
  rewrite add_op_cases. pose proof (none_of_fresh l_n g) as Hf.
  destruct (forallb _ _).
  - destruct (passes_schema reg l_n); [right; right|right; left]; tauto.
  - left. split; [done|]. intros H. apply Hf in H. done.
Qed.

Lemma fresh_id_not_elem l_n g : fresh_id l_n g ↔ id_ l_n ∉ id_ <$> ops_ g.
Proof.
  unfold fresh_id. rewrite list_elem_of_fmap. split.
  - intros H (op & Hid & Hin). by apply (H op).
  - intros H op Hin Hid. apply H. by exists op.
Qed.

Lemma add_ops_snoc reg ops o g :
  add_ops reg (ops ++ [o]) g
  = ((add_ops reg ops g).1 ++ [(add_op reg o (add_ops reg ops g).2).1],
     (add_op reg o (add_ops reg ops g).2).2).
Proof. unfold add_ops. by rewrite foldl_snoc. Qed.

Lemma add_op_unique_ids reg l_n g :
  keeps_id reg → NoDup (id_ <$> ops_ g) → NoDup (id_ <$> ops_ (add_op reg l_n g).2).
Proof.
  intros Hreg Hnd.
  destruct (add_op_step reg l_n g) as [[-> _]|[[-> _]|[-> [Hf _]]]]; [done..|].
  simpl. rewrite fmap_app. apply NoDup_app. split_and!; [done| |apply NoDup_singleton].
  intros i Hi ->%list_elem_of_singleton. rewrite prepared_id in Hi by done.
  by apply fresh_id_not_elem in Hf.
Qed.

Lemma add_op_prefix reg l_n g : ops_ g `prefix_of` ops_ (add_op reg l_n g).2.
Proof.
  destruct (add_op_step reg l_n g) as [[-> _]|[[-> _]|[-> _]]]; [done..|].
  by apply prefix_app_r.
Qed.

Lemma add_op_ids_from reg l_n g i :
  keeps_id reg → i ∈ id_ <$> ops_ (add_op reg l_n g).2 →
  i ∈ id_ <$> ops_ g ∨ i = id_ l_n.
Proof.
  intros Hreg.
  destruct (add_op_step reg l_n g) as [[-> _]|[[-> _]|[-> _]]]; [by left..|].
  simpl. rewrite fmap_app, elem_of_app, list_fmap_singleton, list_elem_of_singleton,
    prepared_id by done.
  done.
Qed.

(** X8: the operators of a graph keep distinct ids through any sequence of
    [add_op] calls, when the schemas do not touch the id.  The calls only
    append: the operators present before stay in front, in the same order;
    each call returns a status; and every id in the graph was there before or
    is the id of a submitted operator. *)
Theorem add_ops_unique_ids (reg : op_schema_registry) (ops : list op_t) (g : graph_t) :
  keeps_id reg →
  NoDup (id_ <$> ops_ g) →
  NoDup (id_ <$> ops_ (add_ops reg ops g).2)
  ∧ ops_ g `prefix_of` ops_ (add_ops reg ops g).2
  ∧ length (add_ops reg ops g).1 = length ops
  ∧ id_ <$> ops_ (add_ops reg ops g).2 ⊆ (id_ <$> ops_ g) ++ (id_ <$> ops).
Proof.
  intros Hreg Hnd. induction ops as [|o ops IH] using rev_ind.
  - split_and!; [done..|]. simpl. by rewrite app_nil_r.
  - destruct IH as (IH1 & IH2 & IH3 & IH4). rewrite add_ops_snoc. simpl.
    split_and!.
    + by apply add_op_unique_ids.
    + etrans; [exact IH2|apply add_op_prefix].
    + rewrite !length_app, IH3. done.
    + intros i Hi. rewrite fmap_app, list_fmap_singleton, app_assoc.
      apply elem_of_app.
      apply add_op_ids_from in Hi as [Hi| ->]; [|right; apply list_elem_of_here|done].
      left. by apply IH4.
Qed.

Lemma set_attr_id name a o : id_ (set_attr name a o) = id_ o.
Proof. by rewrite set_attr_with_attributes. Qed.

Lemma set_attr_kind name a o : kind_ (set_attr name a o) = kind_ o.
Proof. by rewrite set_attr_with_attributes. Qed.

Lemma schema_set_default_id_kind d o :
  id_ (schema_set_default d o) = id_ o ∧ kind_ (schema_set_default d o) = kind_ o.
Proof.
  unfold schema_set_default. induction (sd_attrs d) as [|a l IH] using rev_ind; [done|].
  rewrite foldl_snoc. destruct (as_default a); [|done].
  destruct (attributes_ _ !! as_name a); [done|].
  by rewrite set_attr_id, set_attr_kind.
Qed.

Lemma dnnl_schemas_schema_of k opm :
  dnnl_schemas k = Some opm → ∃ d, opm = schema_of d.
Proof. destruct k; simpl; intros [= <-]; by eexists. Qed.

Lemma dnnl_schemas_keeps_id : keeps_id dnnl_schemas.
Proof.
  intros k opm o [d ->]%dnnl_schemas_schema_of. apply schema_set_default_id_kind.
Qed.

Lemma dnnl_schemas_keeps_kind : keeps_kind dnnl_schemas.
Proof.
  intros k opm o [d ->]%dnnl_schemas_schema_of. apply schema_set_default_id_kind.
Qed.

Lemma add_ops_unique_ids_witness :
  NoDup (id_ <$> ops_ (add_ops dnnl_schemas
                         [conv_op 0 [0; 1] 2; conv_op 0 [0; 1] 2; bare_conv_op 5]
                         empty_graph).2).
Proof.
  apply (add_ops_unique_ids dnnl_schemas
           [conv_op 0 [0; 1] 2; conv_op 0 [0; 1] 2; bare_conv_op 5] empty_graph).
  - exact dnnl_schemas_keeps_id.
  - apply NoDup_nil_2.
Defined.

(** X9: [add_op] is idempotent when the schemas do not touch the id:
    submitting an operator a second time returns the status of the first
    submission and leaves the graph as the first submission left it. *)
Theorem add_op_idempotent (reg : op_schema_registry) (l_n : op_t) (g : graph_t) :
  keeps_id reg →
  add_op reg l_n (add_op reg l_n g).2 = add_op reg l_n g.
Proof.
  intros Hreg.
  destruct (add_op_step reg l_n g) as [[E _]|[[E _]|[E [Hf _]]]];
    rewrite E; simpl; [done..|].
  destruct (add_op_step reg l_n (emplace_back (prepared reg l_n) g))
    as [[E' _]|[[_ [Hf' _]]|[_ [Hf' _]]]]; [done|exfalso..].
  all: apply (Hf' (prepared reg l_n)); [|by apply prepared_id].
  all: simpl; apply elem_of_app; right; apply list_elem_of_singleton; done.
Qed.

Lemma add_op_idempotent_witness :
  add_op dnnl_schemas (conv_op 0 [0; 1] 2)
    (add_op dnnl_schemas (conv_op 0 [0; 1] 2) empty_graph).2
  = add_op dnnl_schemas (conv_op 0 [0; 1] 2) empty_graph.
Proof.
  apply (add_op_idempotent dnnl_schemas (conv_op 0 [0; 1] 2) empty_graph).
  exact dnnl_schemas_keeps_id.
Defined.

(** X10: when the schemas do not touch the id, [add_op] returns [success]
    exactly when the graph holds an operator with the submitted id
    afterwards, be it the stored copy or an operator that was there
    before. *)
Theorem add_op_success_iff_stored (reg : op_schema_registry) (l_n : op_t)
    (g : graph_t) :
  keeps_id reg →
  (add_op reg l_n g).1 = success
  ↔ id_ l_n ∈ id_ <$> ops_ (add_op reg l_n g).2.
Proof.
  intros Hreg.
  destruct (add_op_step reg l_n g) as [[E Hf]|[[E [Hf _]]|[E [Hf _]]]];
    rewrite E; simpl.
  - split; [intros _|done]. rewrite fresh_id_not_elem in Hf.
    by destruct (decide (id_ l_n ∈ id_ <$> ops_ g)).
  - split; [done|]. intros Hin. by apply fresh_id_not_elem in Hf.
  - split; [intros _|done]. rewrite fmap_app, elem_of_app. right.
    rewrite list_fmap_singleton, prepared_id by done. apply list_elem_of_here.
Qed.

Lemma add_op_success_iff_stored_witness :
  (add_op dnnl_schemas (bare_conv_op 5) conv_bn_graph).1 = success
  ↔ id_ (bare_conv_op 5)
    ∈ id_ <$> ops_ (add_op dnnl_schemas (bare_conv_op 5) conv_bn_graph).2.
Proof.
  apply (add_op_success_iff_stored dnnl_schemas (bare_conv_op 5) conv_bn_graph).
  exact dnnl_schemas_keeps_id.
Defined.

Lemma add_op_verified reg l_n g :
  keeps_kind reg →
  Forall (λ o, verified reg o = true) (ops_ g) →
  Forall (λ o, verified reg o = true) (ops_ (add_op reg l_n g).2).
Proof.
  intros Hreg Hall.
  destruct (add_op_step reg l_n g) as [[-> _]|[[-> _]|[-> [_ Hp]]]]; [done..|].
  simpl. apply Forall_app. split; [done|]. apply Forall_singleton.
  unfold verified, prepared, passes_schema in *.
  destruct (reg (kind_ l_n)) as [opm|] eqn:E.
  - by rewrite (Hreg _ _ _ E), E.
  - by rewrite E.
Qed.

(** X11: every operator a graph holds has passed the verification of its
    schema, when the schemas do not touch the kind: if that is so of the
    operators of a graph, it is so after any sequence of [add_op] calls. *)
Theorem add_ops_verified (reg : op_schema_registry) (ops : list op_t) (g : graph_t) :
  keeps_kind reg →
  Forall (λ o, verified reg o = true) (ops_ g) →
  Forall (λ o, verified reg o = true) (ops_ (add_ops reg ops g).2).
Proof.
  intros Hreg Hall. induction ops as [|o ops IH] using rev_ind; [done|].
  rewrite add_ops_snoc. simpl. by apply add_op_verified.
Qed.

Lemma add_ops_verified_witness :
  Forall (λ o, verified dnnl_schemas o = true)
    (ops_ (add_ops dnnl_schemas [conv_op 0 [0; 1] 2; bare_conv_op 5] empty_graph).2).
Proof.
  apply (add_ops_verified dnnl_schemas [conv_op 0 [0; 1] 2; bare_conv_op 5] empty_graph).
  - exact dnnl_schemas_keeps_kind.
  - apply Forall_nil_2.
Defined.

(** ** Nodes of a graph (graph.hpp) *)

Lemma delete_snoc {A} (l : list A) (x : A) : delete (length l) (l ++ [x]) = l.
Proof. induction l as [|y l IH]; simpl; [done|]. by rewrite IH. Qed.

(** X12: [create_node(kind)] adds one node at the end and returns the pointer
    to it, and [delete_node] on that pointer takes it out again: the graph is
    as it was before the two calls. *)
Theorem create_delete_node_round_trip (node_of_kind : op_kind_t → node_t)
    (aop_kind : op_kind_t) (g : graph_t) :
  num_nodes (create_node_kind node_of_kind aop_kind g).2 = S (num_nodes g)
  ∧ get_nodes (create_node_kind node_of_kind aop_kind g).2
      !! (create_node_kind node_of_kind aop_kind g).1
    = Some (node_of_kind aop_kind)
  ∧ delete_node (create_node_kind node_of_kind aop_kind g).1
      (create_node_kind node_of_kind aop_kind g).2 = g.
Proof.
  unfold create_node_kind, delete_node, num_nodes, get_nodes. simpl.
  rewrite length_app. simpl. replace (pred (length (nodes_ g) + 1)) with (length (nodes_ g)) by lia.
  rewrite list_lookup_middle by done. split_and!; [lia|done|].
  unfold with_nodes. simpl. rewrite delete_snoc. by destruct g.
Qed.

Lemma find_node_result i ns :
  Forall has_op_id ns →
  ∃ r, find_node i ns = Some r
       ∧ match r with
         | Some p => ∃ n, ns !! p = Some n ∧ head (node_op_ids n) = Some i
         | None => i ∉ omap (λ n, head (node_op_ids n)) ns
         end.
Proof.
  induction 1 as [|n ns Hn _ IH]; simpl.
  - exists None. split; [done|]. apply not_elem_of_nil.
  - unfold has_op_id in Hn. destruct (node_op_ids n) as [|front ids] eqn:E; [done|].
    simpl. destruct (N.eqb_spec front i) as [->|Hne].
    + exists (Some O). split; [done|]. exists n. by rewrite E.
    + destruct IH as (r & -> & Hr). simpl. destruct r as [p|]; simpl.
      * exists (Some (S p)). done.
      * exists None. split; [done|]. rewrite not_elem_of_cons. done.
Qed.

Lemma find_node_found_elem i ns p :
  find_node i ns = Some (Some p) → i ∈ omap (λ n, head (node_op_ids n)) ns.
Proof.
  revert p. induction ns as [|n ns IH]; simpl; intros p; [done|].
  destruct (head (node_op_ids n)) as [front|]; [|done].
  destruct (N.eqb_spec front i) as [->|Hne]; [intros _; apply list_elem_of_here|].
  destruct (find_node i ns) as [[q|]|]; simpl; [|done..].
  intros _. apply list_elem_of_further. by eapply IH.
Qed.

Lemma find_node_alter (f : node_t → node_t) i (ns : list node_t) (p : nat) :
  (∀ n, node_op_ids (f n) = node_op_ids n) →
  find_node i (alter f p ns) = find_node i ns.
Proof.
  intros Hf. revert p. induction ns as [|n ns IH]; intros p; [done|].
  destruct p as [|p]; simpl.
  - by rewrite Hf.
  - change (alter f p ns) with (list_alter f p ns). by rewrite <-(IH p).
Qed.

Lemma omap_front_alter (f : node_t → node_t) (ns : list node_t) (p : nat) :
  (∀ n, node_op_ids (f n) = node_op_ids n) →
  omap (λ n, head (node_op_ids n)) (alter f p ns)
  = omap (λ n, head (node_op_ids n)) ns.
Proof.
  intros Hf. revert p. induction ns as [|n ns IH]; intros p; [done|].
  destruct p as [|p]; simpl.
  - by rewrite Hf.
  - specialize (IH p). unfold omap, alter in IH. by rewrite IH.
Qed.

Lemma Forall_has_op_id_alter (f : node_t → node_t) (ns : list node_t) (p : nat) :
  (∀ n, node_op_ids (f n) = node_op_ids n) →
  Forall has_op_id ns → Forall has_op_id (alter f p ns).
Proof.
  intros Hf Hall. apply Forall_alter; [done|].
  intros n _ Hn. unfold has_op_id. by rewrite Hf.
Qed.

Lemma find_node_snoc i ns n :
  find_node i ns = Some None → head (node_op_ids n) = Some i →
  find_node i (ns ++ [n]) = Some (Some (length ns)).
Proof.
  intros H Hn. induction ns as [|n' ns IH]; simpl in *.
  - by rewrite Hn, N.eqb_refl.
  - destruct (head (node_op_ids n')) as [front|]; [|done].
    destruct (front =? i); [done|].
    destruct (find_node i ns) as [[q|]|]; simpl in *; [done| |done].
    by rewrite IH.
Qed.

Lemma omap_front_singleton (n : node_t) (i : N) :
  head (node_op_ids n) = Some i → omap (λ n, head (node_op_ids n)) [n] = [i].
Proof. intros H. simpl. by rewrite H. Qed.

Lemma node_of_op_ids parse_op_attr lop :
  (∀ lop n, node_op_ids (parse_op_attr lop n) = node_op_ids n) →
  node_op_ids (node_of_op parse_op_attr lop) = [id_ lop].
Proof. intros Hp. unfold node_of_op. simpl. by rewrite Hp. Qed.

(** X13: [create_node(op)] keeps one node per op id.  On a graph whose nodes
    all carry an op id, with the first ids distinct, and with a
    [parse_op_attr] that leaves the op ids alone, the call returns a pointer
    to a node whose first op id is that of the operator; afterwards all nodes
    still carry an op id and the first ids are still distinct; the number of
    nodes grows by one when no node had the id, and stays otherwise. *)
Theorem create_node_op_one_node_per_id (parse_op_attr : op_t → node_t → node_t)
    (lop : op_t) (g : graph_t) :
  (∀ lop n, node_op_ids (parse_op_attr lop n) = node_op_ids n) →
  Forall has_op_id (nodes_ g) →
  NoDup (front_op_ids g) →
  ∃ p g', create_node_op parse_op_attr lop g = Some (p, g')
    ∧ (∃ n, get_nodes g' !! p = Some n ∧ head (node_op_ids n) = Some (id_ lop))
    ∧ Forall has_op_id (nodes_ g')
    ∧ NoDup (front_op_ids g')
    ∧ num_nodes g'
      = if bool_decide (id_ lop ∈ front_op_ids g) then num_nodes g
        else S (num_nodes g).
Proof.
  intros Hp Hall Hnd. unfold create_node_op, front_op_ids, num_nodes, get_nodes in *.
  destruct (find_node_result (id_ lop) (nodes_ g) Hall) as (r & E & Hr).
  rewrite E. destruct r as [p|].
  - destruct Hr as (n & Hn & Hfront). eexists _, _. split; [done|]. simpl.
    split_and!.
    + exists (parse_op_attr lop n). rewrite list_lookup_alter_eq, Hn. simpl.
      by rewrite Hp.
    + by apply Forall_has_op_id_alter.
    + by rewrite omap_front_alter.
    + rewrite length_alter, bool_decide_eq_true_2; [done|].
      by eapply find_node_found_elem.
  - eexists _, _. split; [done|]. simpl. split_and!.
    + exists (node_of_op parse_op_attr lop).
      rewrite list_lookup_middle by done. by rewrite node_of_op_ids.
    + apply Forall_app. split; [done|]. apply Forall_singleton.
      unfold has_op_id. by rewrite node_of_op_ids.
    + rewrite omap_app, (omap_front_singleton _ (id_ lop))
        by (by rewrite node_of_op_ids).
      apply NoDup_app. split_and!; [done| |apply NoDup_singleton].
      by intros i Hi ->%list_elem_of_singleton.
    + rewrite length_app, bool_decide_eq_false_2 by done. simpl. lia.
Qed.

Lemma create_node_op_one_node_per_id_witness :
  ∃ p g', create_node_op (λ _ n, n) (conv_op 0 [0; 1] 2) empty_graph = Some (p, g')
    ∧ (∃ n, get_nodes g' !! p = Some n
            ∧ head (node_op_ids n) = Some (id_ (conv_op 0 [0; 1] 2)))
    ∧ Forall has_op_id (nodes_ g')
    ∧ NoDup (front_op_ids g')
    ∧ num_nodes g'
      = if bool_decide (id_ (conv_op 0 [0; 1] 2) ∈ front_op_ids empty_graph)
        then num_nodes empty_graph else S (num_nodes empty_graph).
Proof.
  apply (create_node_op_one_node_per_id (λ _ n, n) (conv_op 0 [0; 1] 2) empty_graph).
  - reflexivity.
  - apply Forall_nil_2.
  - apply NoDup_nil_2.
Defined.

(** X14: [create_node(op)] finds the node it made: a second call with an
    operator of the same id returns the same pointer, adds no node and leaves
    the first op ids of the nodes as they are, when [parse_op_attr] leaves
    the op ids alone. *)
Theorem create_node_op_again (parse_op_attr : op_t → node_t → node_t)
    (lop lop' : op_t) (g g' : graph_t) (p : nat) :
  (∀ lop n, node_op_ids (parse_op_attr lop n) = node_op_ids n) →
  id_ lop' = id_ lop →
  create_node_op parse_op_attr lop g = Some (p, g') →
  ∃ g'', create_node_op parse_op_attr lop' g' = Some (p, g'')
    ∧ num_nodes g'' = num_nodes g'
    ∧ front_op_ids g'' = front_op_ids g'.
Proof.
  intros Hp Hid. unfold create_node_op, front_op_ids, num_nodes. rewrite Hid.
  destruct (find_node (id_ lop) (nodes_ g)) as [[q|]|] eqn:E; [| |done].
  - intros [= <- <-]. simpl. rewrite find_node_alter, E by done.
    eexists. split; [done|]. simpl.
    by rewrite length_alter, omap_front_alter.
  - intros [= <- <-]. simpl.
    rewrite (find_node_snoc _ _ _ E) by (by rewrite node_of_op_ids).
    eexists. split; [done|]. simpl.
    by rewrite length_alter, omap_front_alter.
Qed.

Lemma create_node_op_again_witness :
  ∃ g'', create_node_op (λ _ n, n) (bare_conv_op 0)
           (with_nodes [node_of_op (λ _ n, n) (conv_op 0 [0; 1] 2)] empty_graph)
         = Some (O, g'')
    ∧ num_nodes g'' = 1%nat
    ∧ front_op_ids g'' = [0].
Proof.
  apply (create_node_op_again (λ _ n, n) (conv_op 0 [0; 1] 2) (bare_conv_op 0)
           empty_graph).
  - reflexivity.
  - reflexivity.
  - reflexivity.
Defined.

(** ** The manager of executables (compile_ops.hpp) *)

Section executable_mgr_proofs.
Context {op_executable_t : Type}.
Implicit Types m : executable_mgr_t op_executable_t.

Lemma init_executable_Some m :
  (counter m < INT64_MAX)%Z →
  init_executable m
  = Some (counter m,
          {| data_ := unordered_map_insert (counter m) None (data_ m);
             counter := (counter m + 1)%Z |}).
Proof. intros H. unfold init_executable. by rewrite decide_True. Qed.

Lemma unordered_map_insert_lookup (key k : Z) (p : shared_ptr op_executable_t)
    (d : gmap Z (shared_ptr op_executable_t)) :
  unordered_map_insert key p d !! k
  = match d !! k with
    | Some q => Some q
    | None => if decide (k = key) then Some p else None
    end.
Proof.
  unfold unordered_map_insert. destruct (d !! key) as [q|] eqn:E.
  - destruct (d !! k) eqn:E'; [done|]. rewrite decide_False; [done|]. congruence.
  - destruct (decide (k = key)) as [->|Hne].
    + by rewrite lookup_insert_eq, E.
    + rewrite lookup_insert_ne by done. by destruct (d !! k).
Qed.

Lemma get_executable_Some (key : Z) m (p : shared_ptr op_executable_t) :
  data_ m !! key = Some p → get_executable key m = (p, m).
Proof. unfold get_executable. by intros ->. Qed.

Lemma init_executable_keys_issued m key m' :
  keys_issued m → init_executable m = Some (key, m') →
  key = counter m ∧ counter m' = (counter m + 1)%Z ∧ keys_issued m'
  ∧ data_ m !! key = None ∧ data_ m' !! key = Some None
  ∧ ∀ k, k ≠ key → data_ m' !! k = data_ m !! k.
Proof.
  intros [H0 Hk] E. unfold init_executable in E. case_decide; [|done].
  injection E as <- <-. simpl.
  assert (data_ m !! counter m = None) as Hfresh.
  { apply eq_None_not_Some. rewrite Hk. lia. }
  split_and!; [done|done| |done| |].
  - split; simpl; [lia|]. intros k. rewrite unordered_map_insert_lookup.
    destruct (data_ m !! k) as [q|] eqn:E.
    + assert (0 ≤ k < counter m)%Z by (apply Hk; by rewrite E).
      split; [lia|by eexists].
    + assert (¬ (0 ≤ k < counter m)%Z) by (rewrite <-Hk, E; by intros [? ?]).
      case_decide; subst; split; try lia; try (by eexists); by intros [? ?].
  - by rewrite unordered_map_insert_lookup, Hfresh, decide_True.
  - intros k Hne. rewrite unordered_map_insert_lookup, decide_False by done.
    by destruct (data_ m !! k).
Qed.

Lemma init_executables_run (n : nat) m :
  keys_issued m →
  (counter m + Z.of_nat n ≤ INT64_MAX)%Z →
  ∃ m', init_executables n m = Some (seqZ (counter m) (Z.of_nat n), m')
    ∧ counter m' = (counter m + Z.of_nat n)%Z
    ∧ keys_issued m'
    ∧ (∀ k, (k < counter m)%Z → data_ m' !! k = data_ m !! k)
    ∧ (∀ k, (counter m ≤ k < counter m + Z.of_nat n)%Z → data_ m' !! k = Some None).
Proof.
  revert m. induction n as [|n IH]; intros m Hm Hb.
  - exists m. simpl. split_and!; [done|lia|done|done|lia].
  - assert (counter m < INT64_MAX)%Z as Hlt by lia.
    simpl init_executables. rewrite init_executable_Some by done.
    destruct (init_executable_keys_issued m _ _ Hm (init_executable_Some m Hlt))
      as (_ & Hc & Hm1 & Hfresh & Hnew & Hold).
    set (m1 := {| data_ := _; counter := _ |}) in *.
    destruct (IH m1 Hm1) as (m' & -> & Hc' & Hm' & Hlow & Hhigh); [rewrite Hc; lia|].
    exists m'. split_and!.
    + rewrite Hc. rewrite (seqZ_cons (counter m)) by lia.
      replace (Z.pred (Z.of_nat (S n))) with (Z.of_nat n) by lia.
      by replace (Z.succ (counter m)) with (counter m + 1)%Z by lia.
    + lia.
    + done.
    + intros k Hk. rewrite Hlow by lia. apply Hold. lia.
    + intros k Hk. destruct (decide (k = counter m)) as [->|Hne].
      * rewrite Hlow by lia. done.
      * apply Hhigh. lia.
Qed.

(** X15: [init_executable] hands out a fresh key with an empty slot.  In a
    manager whose keys are the ones handed out so far, with the counter below
    the largest [int64_t], the call returns the counter; the key was not in
    the map before; [get_executable] on it reads an empty pointer and changes
    nothing; the slots of all other keys are as before; and the keys of the
    manager are again the ones handed out. *)
Theorem init_executable_fresh m :
  keys_issued m →
  (counter m < INT64_MAX)%Z →
  ∃ m', init_executable m = Some (counter m, m')
    ∧ data_ m !! counter m = None
    ∧ get_executable (counter m) m' = (None, m')
    ∧ (∀ k, k ≠ counter m → data_ m' !! k = data_ m !! k)
    ∧ keys_issued m'.
Proof.
  intros Hm Hb. eexists. split; [by apply init_executable_Some|].
  destruct (init_executable_keys_issued m _ _ Hm (init_executable_Some m Hb))
    as (_ & Hc & Hm1 & Hfresh & Hnew & Hold).
  split_and!; [done| |done|done].
  by apply get_executable_Some.
Qed.

(** X16: [n] calls of [init_executable] on a new manager return the keys
    [0, 1, ..., n-1] in this order, as long as [n] does not exceed the
    largest [int64_t]; afterwards the counter is [n] and each of these keys
    has an empty slot. *)
Theorem init_executables_keys (n : nat) :
  (Z.of_nat n ≤ INT64_MAX)%Z →
  ∃ m', init_executables n (executable_mgr_init (op_executable_t := op_executable_t))
        = Some (seqZ 0 (Z.of_nat n), m')
    ∧ counter m' = Z.of_nat n
    ∧ ∀ k, (0 ≤ k < Z.of_nat n)%Z → get_executable k m' = (None, m').
Proof.
  intros Hn.
  destruct (init_executables_run n executable_mgr_init) as (m' & E & Hc & _ & _ & Hs).
  - split; simpl; [done|]. intros k. rewrite lookup_empty. split; [by intros [? ?]|lia].
  - simpl. lia.
  - exists m'. simpl in *. split_and!; [done|lia|].
    intros k Hk. apply get_executable_Some, Hs. lia.
Qed.

Lemma init_executables_preserve (n : nat) m keys m' k (p : shared_ptr op_executable_t) :
  data_ m !! k = Some p →
  init_executables n m = Some (keys, m') →
  data_ m' !! k = Some p.
Proof.
  revert m keys. induction n as [|n IH]; intros m keys Hk; simpl.
  - by intros [= _ <-].
  - unfold init_executable. case_decide; [|done].
    set (m1 := {| data_ := _; counter := _ |}).
    destruct (init_executables n m1) as [[keys' m2]|] eqn:E; [|done].
    intros [= _ <-]. apply (IH m1 keys'); [|done].
    simpl. by rewrite unordered_map_insert_lookup, Hk.
Qed.

(** X17: [init_executable] never overwrites: an executable that is stored
    under a key is still read under this key after any number of later
    [init_executable] calls, whatever keys they return. *)
Theorem init_executables_keep_stored (n : nat) m (keys : list Z) m' (k : Z)
    (p : shared_ptr op_executable_t) :
  data_ m !! k = Some p →
  init_executables n m = Some (keys, m') →
  get_executable k m' = (p, m').
Proof.
  intros Hk E. apply get_executable_Some.
  exact (init_executables_preserve n m keys m' k p Hk E).
Qed.

(** X18: [get_executable] with a key that was never handed out makes a slot
    for it, and [init_executable] does not clear a slot it finds.  When a
    caller stores an executable under the key the counter stands at, the map
    grows by this one entry, and the next [init_executable] returns this very
    key with the executable still in its slot. *)
Theorem init_executable_after_stray_store m (e : op_executable_t) :
  data_ m !! counter m = None →
  (counter m < INT64_MAX)%Z →
  size (data_ (assign_executable (counter m) (Some e) m)) = S (size (data_ m))
  ∧ ∃ m', init_executable (assign_executable (counter m) (Some e) m)
          = Some (counter m, m')
      ∧ get_executable (counter m) m' = (Some e, m').
Proof.
  intros Hfresh Hb. unfold assign_executable, get_executable. rewrite Hfresh. simpl.
  split.
  - rewrite insert_insert_eq. by apply map_size_insert_None.
  - rewrite init_executable_Some by done. simpl. eexists. split; [done|].
    simpl. by rewrite unordered_map_insert_lookup, lookup_insert_eq.
Qed.
End executable_mgr_proofs.

Lemma init_executable_fresh_witness :
  ∃ m', init_executable (executable_mgr_init (op_executable_t := string))
        = Some (0%Z, m')
    ∧ data_ (executable_mgr_init (op_executable_t := string)) !! 0%Z = None
    ∧ get_executable 0%Z m' = (None, m')
    ∧ (∀ k, k ≠ 0%Z → data_ m' !! k = data_ (executable_mgr_init (op_executable_t := string)) !! k)
    ∧ keys_issued m'.
Proof.
  apply (init_executable_fresh (executable_mgr_init (op_executable_t := string))).
  - split; [reflexivity|]. intros k. simpl. rewrite lookup_empty.
    split; [by intros [? ?]|lia].
  - reflexivity.
Defined.

Lemma init_executables_keys_witness :
  ∃ m', init_executables 3 (executable_mgr_init (op_executable_t := string))
        = Some ([0; 1; 2]%Z, m')
    ∧ counter m' = 3%Z
    ∧ ∀ k, (0 ≤ k < 3)%Z → get_executable k m' = (None, m').
Proof.
  apply (init_executables_keys (op_executable_t := string) 3). vm_compute. discriminate.
Defined.

Lemma init_executables_keep_stored_witness :
  ∃ m', init_executables 2 {| data_ := {[0%Z := Some "conv"]}; counter := 1 |}
        = Some ([1; 2]%Z, m')
    ∧ get_executable 0%Z m' = (Some "conv", m').
Proof.
  eexists. split; [vm_compute; reflexivity|].
  apply (init_executables_keep_stored 2
           {| data_ := {[0%Z := Some "conv"]}; counter := 1 |} [1; 2]%Z _ 0%Z
           (Some "conv")); vm_compute; reflexivity.
Defined.

Lemma init_executable_after_stray_store_witness :
  ∃ m', init_executable
          (assign_executable 0%Z (Some "conv")
             (executable_mgr_init (op_executable_t := string)))
        = Some (0%Z, m')
    ∧ get_executable 0%Z m' = (Some "conv", m').
Proof.
  apply (proj2 (init_executable_after_stray_store
                  (executable_mgr_init (op_executable_t := string)) "conv"
                  eq_refl eq_refl)).
Defined.

(** ** Utilities of test_pass.cpp *)

Lemma create_logical_tensors_loop_run (fuel : nat) (num_lt count : N)
    (lt_vec : list logical_tensor_t) :
  count + N.of_nat fuel = num_lt →
  create_logical_tensors_loop fuel num_lt count lt_vec
  = Some (lt_vec ++ ((λ i, lt (count + N.of_nat i)) <$> seq 0 fuel)).
Proof.
  revert count lt_vec. induction fuel as [|fuel IH]; intros count lt_vec Hc; simpl.
  - rewrite (proj2 (N.ltb_ge _ _)) by lia. by rewrite app_nil_r.
  - rewrite (proj2 (N.ltb_lt _ _)) by lia. rewrite IH by lia.
    rewrite <-app_assoc. simpl. do 3 f_equal.
    + unfold lt. f_equal. lia.
    + rewrite <-fmap_S_seq, <-list_fmap_compose. apply list_fmap_ext.
      intros _ i _. simpl. f_equal. lia.
Qed.

(** X19: for a [num_lt] of [size_t], [create_logical_tensors(num_lt)] returns
    when its [reserve] does,
    and then returns [num_lt] tensors of type f32 whose ids are their
    positions 0, 1, ..., num_lt-1, so that no two of them share an id; when
    [reserve] throws, as for a [num_lt] beyond [max_size()], it throws. *)
Theorem create_logical_tensors_ids (reserve : N → outcome ()) (num_lt : N) :
  num_lt < 2 ^ 64 →
  (reserve num_lt = Throws → create_logical_tensors reserve num_lt = Some Throws)
  ∧ (reserve num_lt = Returns () →
     ∃ lt_vec, create_logical_tensors reserve num_lt = Some (Returns lt_vec)
       ∧ length lt_vec = N.to_nat num_lt
       ∧ (∀ i, (i < N.to_nat num_lt)%nat →
            lt_vec !! i = Some (logical_tensor_init (N.of_nat i) f32))
       ∧ NoDup (lt_id <$> lt_vec)).
Proof.
  intros _. unfold create_logical_tensors. split; [by intros ->|]. intros ->.
  rewrite create_logical_tensors_loop_run by lia. eexists. split; [done|].
  simpl. split_and!.
  - by rewrite length_fmap, length_seq.
  - intros i Hi. rewrite list_lookup_fmap, lookup_seq_lt by done. simpl.
    unfold lt. repeat f_equal; lia.
  - rewrite <-list_fmap_compose. apply NoDup_fmap_2_strong; [|apply NoDup_seq].
    intros i j _ _. simpl. lia.
Qed.

Lemma create_logical_tensors_ids_witness :
  create_logical_tensors (reserve_up_to (2 ^ 59)) (2 ^ 63) = Some Throws
  ∧ ∃ lt_vec, create_logical_tensors (reserve_up_to (2 ^ 59)) 8 = Some (Returns lt_vec)
      ∧ length lt_vec = 8%nat.
Proof.
  split.
  - apply (proj1 (create_logical_tensors_ids (reserve_up_to (2 ^ 59)) (2 ^ 63)
                    ltac:(reflexivity))).
    reflexivity.
  - destruct (proj2 (create_logical_tensors_ids (reserve_up_to (2 ^ 59)) 8
                       ltac:(reflexivity)) eq_refl) as (lt_vec & E & Hlen & _).
    exists lt_vec. split; [exact E|exact Hlen].
Defined.

(** ** Kernels of the DNNL backend *)

Section kernel_post.
Context {S : Type}.

Lemma kernel_post_bind {A B} (m : kernel_m S A) (f : A → kernel_m S B) s
    (P : S → B → Prop) :
  kernel_post m s (λ s1 a, kernel_post (f a) s1 P) → kernel_post (m ≫= f) s P.
Proof.
  unfold kernel_post, mbind, kernel_bind. by destruct (m s) as [s1 [a|]].
Qed.

Lemma kernel_post_lift {A} (o : outcome A) s (P : S → A → Prop) :
  (∀ a, o = Returns a → P s a) → kernel_post (lift o) s P.
Proof. unfold kernel_post, lift. destruct o; [auto|done]. Qed.

Lemma kernel_post_gets {A} (f : S → A) s (P : S → A → Prop) :
  P s (f s) → kernel_post (gets f) s P.
Proof. done. Qed.

Lemma kernel_post_modify (f : S → S) s (P : S → () → Prop) :
  P (f s) () → kernel_post (modify f) s P.
Proof. done. Qed.

Lemma kernel_post_ret {A} (a : A) s (P : S → A → Prop) :
  P s a → kernel_post (mret a) s P.
Proof. done. Qed.

Lemma kernel_post_throw {A} s (P : S → A → Prop) : kernel_post throw s P.
Proof. done. Qed.

Lemma kernel_post_Returns {A} (m : kernel_m S A) s s' a (P : S → A → Prop) :
  kernel_post m s P → m s = (s', Returns a) → P s' a.
Proof. intros H E. unfold kernel_post in H. by rewrite E in H. Qed.

Lemma kernel_post_Throws {A} (m : kernel_m S A) s :
  kernel_post m s (λ _ _, False) → (m s).2 = Throws.
Proof. unfold kernel_post. by destruct (m s) as [s1 [a|]]. Qed.
End kernel_post.

Ltac wp_step :=
  cbv beta;
  lazymatch goal with
  | |- kernel_post (_ ≫= _) _ _ => apply kernel_post_bind
  | |- kernel_post (lift _) _ _ => apply kernel_post_lift; intros ? ?
  | |- kernel_post (gets _) _ _ => apply kernel_post_gets
  | |- kernel_post (modify _) _ _ => apply kernel_post_modify
  | |- kernel_post (mret _) _ _ => apply kernel_post_ret
  | |- kernel_post throw _ _ => apply kernel_post_throw
  | |- kernel_post (if ?b then _ else _) _ _ => destruct b eqn:?
  | |- kernel_post (match ?x with Some _ => _ | None => _ end) _ _ =>
      destruct x eqn:?
  end.

Lemma vector_at_Returns {A} (v : list A) (i : N) (x : A) :
  vector_at v i = Returns x ↔ v !! N.to_nat i = Some x.
Proof.
  unfold vector_at. destruct (v !! N.to_nat i); split; intros; simplify_eq; done.
Qed.

Section eltwise_forward_proofs.
Context `{dnnl_lib} {node : Type} `{!node_attributes node}.
Import eltwise_forward.

Lemma eltwise_forward_compile_post (anode : node) (g_engine : engine_t)
    (inputs outputs : list logical_tensor_t) (k : t) :
  kernel_post (compile_impl anode g_engine inputs) (k, outputs) (λ s' st,
    st = success
    ∧ algorithm_of (get_op_kind anode) = Some (algo_ s'.1)
    ∧ attr_or2 ak_f "alpha" "min" anode (alpha_ k) (alpha_ s'.1)
    ∧ attr_or2 ak_f "beta" "max" anode (beta_ k) (beta_ s'.1)
    ∧ prop_kind_ s'.1 = prop_kind_ k
    ∧ (∃ src_lt src,
         inputs !! 0%nat = Some src_lt ∧ desc_of src_lt = Returns src
         ∧ make_dnnl_engine g_engine = Returns (p_engine_ s'.1)
         ∧ eltwise_forward_primitive_desc (prop_kind_ s'.1) (algo_ s'.1) src
             (alpha_ s'.1) (beta_ s'.1) (p_engine_ s'.1) = Returns (pd_ s'.1))
    ∧ (∃ desc dst_lt filled,
         eltwise_forward_dst_desc (pd_ s'.1) = Returns desc
         ∧ outputs !! 0%nat = Some dst_lt
         ∧ fill_layout_info dst_lt desc = Returns filled
         ∧ s'.2 = <[0%nat := filled]> outputs)).
Proof.
  unfold compile_impl, assign, fill_output, BACKEND_DNNL_ENFORCE_0, attr_or2, attr_or.
  repeat wp_step; simpl in *.
  all: repeat match goal with H : vector_at _ _ = _ |- _ =>
         apply vector_at_Returns in H; simpl in H end.
  all: split_and!; try done; eauto 10.
Qed.
End eltwise_forward_proofs.

Section eltwise_forward_theorems.
Context `{dnnl_lib} {node : Type} `{!node_attributes node}.
Import eltwise_forward.

(** X20: what holds when [eltwise_forward::compile_impl] returns.  The status
    is [success]; the kind of the node is one of the eleven of the [switch]
    and [algo_] is its algorithm; [alpha_] is the attribute alpha when the
    node has it, else the attribute min when the node has it, else as before,
    and [beta_] likewise from beta and max; [pd_] is the primitive descriptor
    made from these for the descriptor of the first input; and of the outputs
    only the first was written, with the layout of the destination. *)
Theorem eltwise_forward_compiled (anode : node) (g_engine : engine_t)
    (inputs outputs outputs' : list logical_tensor_t) (k k' : t) (st : status_t) :
  compile_impl anode g_engine inputs (k, outputs) = ((k', outputs'), Returns st) →
  st = success
  ∧ algorithm_of (get_op_kind anode) = Some (algo_ k')
  ∧ attr_or2 ak_f "alpha" "min" anode (alpha_ k) (alpha_ k')
  ∧ attr_or2 ak_f "beta" "max" anode (beta_ k) (beta_ k')
  ∧ prop_kind_ k' = prop_kind_ k
  ∧ (∃ src_lt src,
       inputs !! 0%nat = Some src_lt ∧ desc_of src_lt = Returns src
       ∧ make_dnnl_engine g_engine = Returns (p_engine_ k')
       ∧ eltwise_forward_primitive_desc (prop_kind_ k') (algo_ k') src
           (alpha_ k') (beta_ k') (p_engine_ k') = Returns (pd_ k'))
  ∧ (∃ desc dst_lt filled,
       eltwise_forward_dst_desc (pd_ k') = Returns desc
       ∧ outputs !! 0%nat = Some dst_lt
       ∧ fill_layout_info dst_lt desc = Returns filled
       ∧ outputs' = <[0%nat := filled]> outputs).
Proof.
  intros E.
  exact (kernel_post_Returns _ _ _ _ _
           (eltwise_forward_compile_post anode g_engine inputs outputs k) E).
Qed.

(** X21: [eltwise_forward::compile_impl] throws when there is no input, when
    there is no output, and when the kind of the node is none of the eleven
    of the [switch], whatever the library does. *)
Theorem eltwise_forward_compile_throws (anode : node) (g_engine : engine_t)
    (inputs outputs : list logical_tensor_t) (k : t) :
  inputs = [] ∨ outputs = [] ∨ algorithm_of (get_op_kind anode) = None →
  (compile_impl anode g_engine inputs (k, outputs)).2 = Throws.
Proof.
  intros Hbad.
  destruct (compile_impl anode g_engine inputs (k, outputs)) as [[k' outputs'] [st|]]
    eqn:E; [exfalso|done].
  apply (kernel_post_Returns _ _ _ _ _
           (eltwise_forward_compile_post anode g_engine inputs outputs k)) in E.
  destruct E as (_ & Halgo & _ & _ & _ & (? & ? & Hin & _) & (? & ? & ? & _ & Hout & _)).
  destruct Hbad as [->|[->|Hk]]; [done|done|congruence].
Qed.
End eltwise_forward_theorems.

Lemma eltwise_forward_compiled_witness :
  ∃ k' outputs',
    eltwise_forward.compile_impl (H := example_dnnl) (hardtanh_op 2 0 6 [4] 5) cpu
      [lt 4]
      (example_eltwise_forward, [lt 5])
    = ((k', outputs'), Returns success)
    ∧ eltwise_forward.algorithm_of (get_op_kind (hardtanh_op 2 0 6 [4] 5))
      = Some (eltwise_forward.algo_ k')
    ∧ eltwise_forward.algo_ k' = algorithm.eltwise_clip
    ∧ eltwise_forward.alpha_ k' = 0%Q
    ∧ eltwise_forward.beta_ k' = 6%Q.
Proof.
  eexists _, _. split; [vm_compute; reflexivity|]. split.
  - refine (proj1 (proj2 (eltwise_forward_compiled (H := example_dnnl)
                            (hardtanh_op 2 0 6 [4] 5) cpu [lt 4] [lt 5] _
                            example_eltwise_forward _ success _))).
    vm_compute. reflexivity.
  - vm_compute. done.
Defined.

Lemma eltwise_forward_compile_throws_witness :
  (eltwise_forward.compile_impl (H := example_dnnl)
     (plain_op 3 Sigmoid "sigmoid" [3] 4) cpu [lt 3]
     (example_eltwise_forward, [lt 4])).2 = Throws.
Proof.
  apply (eltwise_forward_compile_throws (H := example_dnnl)).
  right. right. reflexivity.
Defined.

Section eltwise_backward_proofs.
Context `{dnnl_lib} {node : Type} `{!node_attributes node}.
Import eltwise_backward.

Lemma eltwise_backward_compile_post (anode : node) (g_engine : engine_t)
    (inputs outputs : list logical_tensor_t) (k : t) :
  kernel_post (compile_impl anode g_engine inputs) (k, outputs) (λ s' st,
    st = success
    ∧ algorithm_of (get_op_kind anode) = Some (algo_ s'.1)
    ∧ alpha_ s'.1 = 0%Q ∧ beta_ s'.1 = 0%Q
    ∧ (∃ src_lt src forward_hints dst_desc,
         inputs !! 1%nat = Some src_lt ∧ desc_of src_lt = Returns src
         ∧ make_dnnl_engine g_engine = Returns (p_engine_ s'.1)
         ∧ eltwise_forward_primitive_desc prop_kind.forward_training (algo_ s'.1)
             src 0 0 (p_engine_ s'.1) = Returns forward_hints
         ∧ eltwise_forward_dst_desc forward_hints = Returns dst_desc
         ∧ eltwise_backward_primitive_desc (algo_ s'.1) dst_desc src 0 0
             (p_engine_ s'.1) forward_hints = Returns (pd_ s'.1))
    ∧ (∃ desc diff_src_lt filled,
         eltwise_backward_diff_src_desc (pd_ s'.1) = Returns desc
         ∧ outputs !! 0%nat = Some diff_src_lt
         ∧ fill_layout_info diff_src_lt desc = Returns filled
         ∧ s'.2 = <[0%nat := filled]> outputs)).
Proof.
  unfold compile_impl, get_config, assign, fill_output, BACKEND_DNNL_ENFORCE_0.
  repeat wp_step; simpl in *.
  all: repeat match goal with H : vector_at _ _ = _ |- _ =>
         apply vector_at_Returns in H; simpl in H end.
  all: split_and!; try done; eauto 12.
Qed.

(** X22: what holds when [eltwise_backward::compile_impl] returns.  The
    status is [success]; the kind of the node is ReLUBackprop or GELUBackprop
    and [algo_] is eltwise_relu, respectively eltwise_gelu_erf; [alpha_] and
    [beta_] are zero; [pd_] is the backward descriptor made for the second
    input with the hints of a forward-training descriptor of the same
    algorithm; and of the outputs only the first was written. *)
Theorem eltwise_backward_compiled (anode : node) (g_engine : engine_t)
    (inputs outputs outputs' : list logical_tensor_t) (k k' : t) (st : status_t) :
  compile_impl anode g_engine inputs (k, outputs) = ((k', outputs'), Returns st) →
  st = success
  ∧ (get_op_kind anode = ReLUBackprop ∧ algo_ k' = algorithm.eltwise_relu
     ∨ get_op_kind anode = GELUBackprop ∧ algo_ k' = algorithm.eltwise_gelu_erf)
  ∧ alpha_ k' = 0%Q ∧ beta_ k' = 0%Q
  ∧ (∃ src_lt src forward_hints dst_desc,
       inputs !! 1%nat = Some src_lt ∧ desc_of src_lt = Returns src
       ∧ make_dnnl_engine g_engine = Returns (p_engine_ k')
       ∧ eltwise_forward_primitive_desc prop_kind.forward_training (algo_ k')
           src 0 0 (p_engine_ k') = Returns forward_hints
       ∧ eltwise_forward_dst_desc forward_hints = Returns dst_desc
       ∧ eltwise_backward_primitive_desc (algo_ k') dst_desc src 0 0
           (p_engine_ k') forward_hints = Returns (pd_ k'))
  ∧ (∃ desc diff_src_lt filled,
       eltwise_backward_diff_src_desc (pd_ k') = Returns desc
       ∧ outputs !! 0%nat = Some diff_src_lt
       ∧ fill_layout_info diff_src_lt desc = Returns filled
       ∧ outputs' = <[0%nat := filled]> outputs).
Proof.
  intros E.
  apply (kernel_post_Returns _ _ _ _ _
           (eltwise_backward_compile_post anode g_engine inputs outputs k)) in E.
  simpl in E. destruct E as (Hst & Halgo & Ha & Hb & Hpd & Hout).
  split_and!; try done.
  unfold algorithm_of in Halgo.
  destruct (get_op_kind anode); simplify_eq; auto.
Qed.

(** X23: [eltwise_backward::compile_impl] throws when it is given fewer than
    two inputs, when there is no output, and when the kind of the node is
    neither ReLUBackprop nor GELUBackprop, whatever the library does. *)
Theorem eltwise_backward_compile_throws (anode : node) (g_engine : engine_t)
    (inputs outputs : list logical_tensor_t) (k : t) :
  (length inputs < 2)%nat ∨ outputs = []
  ∨ (get_op_kind anode ≠ ReLUBackprop ∧ get_op_kind anode ≠ GELUBackprop) →
  (compile_impl anode g_engine inputs (k, outputs)).2 = Throws.
Proof.
  intros Hbad.
  destruct (compile_impl anode g_engine inputs (k, outputs)) as [[k' outputs'] [st|]]
    eqn:E; [exfalso|done].
  apply (kernel_post_Returns _ _ _ _ _
           (eltwise_backward_compile_post anode g_engine inputs outputs k)) in E.
  destruct E as (_ & Halgo & _ & _ & (? & ? & ? & ? & Hin & _) & (? & ? & ? & _ & Hout & _)).
  destruct Hbad as [Hlen|[->|[Hk1 Hk2]]].
  - apply lookup_lt_Some in Hin. lia.
  - done.
  - unfold algorithm_of in Halgo. by destruct (get_op_kind anode).
Qed.
End eltwise_backward_proofs.

Lemma eltwise_backward_compiled_witness :
  ∃ k' outputs',
    eltwise_backward.compile_impl (H := example_dnnl)
      {| en_kind := ReLUBackprop; en_attrs := ∅ |} cpu [lt 0; lt 1]
      (example_eltwise_backward, [lt 2])
    = ((k', outputs'), Returns success)
    ∧ eltwise_backward.alpha_ k' = 0%Q.
Proof.
  eexists _, _. split; [vm_compute; reflexivity|].
  refine (proj1 (proj2 (proj2 (eltwise_backward_compiled (H := example_dnnl)
            {| en_kind := ReLUBackprop; en_attrs := ∅ |} cpu [lt 0; lt 1] [lt 2]
            _ example_eltwise_backward _ success _)))).
  vm_compute. reflexivity.
Defined.

Lemma eltwise_backward_compile_throws_witness :
  (eltwise_backward.compile_impl (H := example_dnnl)
     {| en_kind := ReLUBackprop; en_attrs := ∅ |} cpu [lt 0]
     (example_eltwise_backward, [lt 2])).2 = Throws.
Proof.
  apply (eltwise_backward_compile_throws (H := example_dnnl)).
  left. simpl. lia.
Defined.

Section layernorm_proofs.
Context `{dnnl_lib} {op : Type} `{!node_attributes op}.
Import layer_normalization_forward.

Lemma layernorm_compile_post (aop : op) (g_engine : engine_t)
    (inputs outputs : list logical_tensor_t) (k : t) :
  kernel_post (compile_impl aop g_engine inputs) (k, outputs) (λ s' st,
    st = success
    ∧ attr_or ak_f "epsilon" aop (epsilon_ k) (epsilon_ s'.1)
    ∧ attr_or ak_i "begin_norm_axis" aop (begin_norm_axis_ k) (begin_norm_axis_ s'.1)
    ∧ attr_or ak_b "keep_stats" aop (keep_stats_ k) (keep_stats_ s'.1)
    ∧ attr_or ak_b "use_affine" aop (use_affine_ k) (use_affine_ s'.1)
    ∧ (∃ src_lt src,
         inputs !! 0%nat = Some src_lt ∧ desc_of src_lt = Returns src
         ∧ make_dnnl_engine g_engine = Returns (p_engine_ s'.1)
         ∧ layernorm_primitive_desc
             (if keep_stats_ s'.1 then prop_kind.forward_training
              else prop_kind.forward_inference)
             src (epsilon_ s'.1)
             (if use_affine_ s'.1 then normalization_flag.use_scale_shift
              else normalization_flag.none)
             (p_engine_ s'.1) = Returns (pd_ s'.1))
    ∧ ((if keep_stats_ s'.1 then 3 else 1) ≤ length outputs)%nat
    ∧ length s'.2 = length outputs
    ∧ drop (if keep_stats_ s'.1 then 3 else 1) s'.2
      = drop (if keep_stats_ s'.1 then 3 else 1) outputs).
Proof.
  unfold compile_impl, assign_attr, assign, fill_output, BACKEND_DNNL_ENFORCE_0,
    attr_or.
  repeat wp_step; simpl in *.
  all: repeat match goal with H : vector_at _ _ = _ |- _ =>
         apply vector_at_Returns in H; simpl in H end.
  all: repeat match goal with H : (_ <? _)%nat = false |- _ =>
         apply Nat.ltb_ge in H; rewrite ?length_insert in H end.
  all: unfold layernorm.kSrc, layernorm.kDst, layernorm.kMean, layernorm.kVariance in *.
  all: change (N.to_nat 0) with 0%nat in *; change (N.to_nat 1) with 1%nat in *;
       change (N.to_nat 2) with 2%nat in *.
  all: subst.
  all: match goal with H : ?l !! 0%nat = Some _, H' : make_dnnl_engine _ = _ |- _ =>
         pose proof (lookup_lt_Some _ _ _ H) end.
  all: repeat match goal with
              | H : ?b = true |- context [if ?b then _ else _] => rewrite H
              | H : ?b = false |- context [if ?b then _ else _] => rewrite H
              end.
  all: split_and!; try done; eauto 10.
  all: rewrite ?length_insert; try lia.
  all: rewrite ?drop_insert_lt by lia; done.
Qed.

(** X24: what holds when [layer_normalization_forward::compile_impl]
    returns.  The status is [success]; each of [epsilon_],
    [begin_norm_axis_], [keep_stats_] and [use_affine_] is the attribute of
    its name when the operator has it and is as before otherwise; [pd_] is
    the descriptor made for the first input, for training exactly when the
    statistics are kept and with scale and shift exactly when the
    normalization is affine; there are at least three outputs when the
    statistics are kept and at least one otherwise, and the outputs after
    these were not written. *)
Theorem layernorm_compiled (aop : op) (g_engine : engine_t)
    (inputs outputs outputs' : list logical_tensor_t) (k k' : t) (st : status_t) :
  compile_impl aop g_engine inputs (k, outputs) = ((k', outputs'), Returns st) →
  st = success
  ∧ attr_or ak_f "epsilon" aop (epsilon_ k) (epsilon_ k')
  ∧ attr_or ak_i "begin_norm_axis" aop (begin_norm_axis_ k) (begin_norm_axis_ k')
  ∧ attr_or ak_b "keep_stats" aop (keep_stats_ k) (keep_stats_ k')
  ∧ attr_or ak_b "use_affine" aop (use_affine_ k) (use_affine_ k')
  ∧ (∃ src_lt src,
       inputs !! 0%nat = Some src_lt ∧ desc_of src_lt = Returns src
       ∧ make_dnnl_engine g_engine = Returns (p_engine_ k')
       ∧ layernorm_primitive_desc
           (if keep_stats_ k' then prop_kind.forward_training
            else prop_kind.forward_inference)
           src (epsilon_ k')
           (if use_affine_ k' then normalization_flag.use_scale_shift
            else normalization_flag.none)
           (p_engine_ k') = Returns (pd_ k'))
  ∧ ((if keep_stats_ k' then 3 else 1) ≤ length outputs)%nat
  ∧ length outputs' = length outputs
  ∧ drop (if keep_stats_ k' then 3 else 1) outputs'
    = drop (if keep_stats_ k' then 3 else 1) outputs.
Proof.
  intros E.
  exact (kernel_post_Returns _ _ _ _ _
           (layernorm_compile_post aop g_engine inputs outputs k) E).
Qed.

(** X25: [layer_normalization_forward::compile_impl] throws when there is no
    input, when there is no output, and when the statistics are kept, by the
    attribute keep_stats or, without it, by the field as it stands, and there
    are fewer than three outputs; whatever the library does. *)
Theorem layernorm_compile_throws (aop : op) (g_engine : engine_t)
    (inputs outputs : list logical_tensor_t) (k : t) :
  inputs = [] ∨ outputs = []
  ∨ (attr_or ak_b "keep_stats" aop (keep_stats_ k) true ∧ (length outputs < 3)%nat) →
  (compile_impl aop g_engine inputs (k, outputs)).2 = Throws.
Proof.
  intros Hbad.
  destruct (compile_impl aop g_engine inputs (k, outputs)) as [[k' outputs'] [st|]]
    eqn:E; [exfalso|done].
  apply (kernel_post_Returns _ _ _ _ _
           (layernorm_compile_post aop g_engine inputs outputs k)) in E.
  simpl in E.
  destruct E as (_ & _ & _ & Hks & _ & (? & ? & Hin & _) & Hlen & _).
  destruct Hbad as [->|[->|[Hkeep Hlt]]]; [done| |].
  - simpl in Hlen. destruct (keep_stats_ k'); lia.
  - assert (keep_stats_ k' = true) as Hk'.
    { unfold attr_or in *. destruct (has_attr "keep_stats" aop); congruence. }
    rewrite Hk' in Hlen. lia.
Qed.
End layernorm_proofs.

Lemma layernorm_compiled_witness :
  ∃ k' outputs',
    layer_normalization_forward.compile_impl (H := example_dnnl)
      (set_attr_as ak_b "keep_stats" false (mk_op 0 Wildcard "layernorm")) cpu
      [lt 0] (example_layernorm, [lt 1])
    = ((k', outputs'), Returns success)
    ∧ attr_or ak_b "keep_stats"
        (set_attr_as ak_b "keep_stats" false (mk_op 0 Wildcard "layernorm"))
        (layer_normalization_forward.keep_stats_ example_layernorm)
        (layer_normalization_forward.keep_stats_ k').
Proof.
  eexists _, _. split; [vm_compute; reflexivity|].
  refine (proj1 (proj2 (proj2 (proj2 (layernorm_compiled (H := example_dnnl)
            (set_attr_as ak_b "keep_stats" false (mk_op 0 Wildcard "layernorm")) cpu
            [lt 0] [lt 1] _ example_layernorm _ success _))))).
  vm_compute. reflexivity.
Defined.

Lemma layernorm_compile_throws_witness :
  (layer_normalization_forward.compile_impl (H := example_dnnl)
     (mk_op 0 Wildcard "layernorm") cpu [lt 0; lt 1; lt 2]
     (example_layernorm, [lt 3; lt 4])).2 = Throws.
Proof.
  apply (layernorm_compile_throws (H := example_dnnl)).
  right. right. split; [reflexivity|simpl; lia].
Defined.
